(** * Gaussian elimination solver (gauss.cpp): model and verified properties

    The development follows the layout of the source file:
    - [Double]: IEEE 754 binary64 arithmetic, the C++ [double];
    - [Storage]: [vector_t] and [matrix_t] (an array of row handles);
    - [TBB]: [blocked_range], [parallel_reduce] and [parallel_for] as they
      execute under [task_scheduler_init init(1)], i.e. one worker thread;
    - [Proc]: standard output and [exit] as a writer/exit monad;
    - [initializeFromSeed], [gauss], [check] and [main].  *)

From Stdlib Require Import ZArith Lia Bool Ascii String.
From Stdlib Require Import Floats.SpecFloat.
From stdpp Require Import base list.

Local Open Scope nat_scope.

(* ===================================================================== *)
(** ** C++ [double]: IEEE 754 binary64 *)
(* ===================================================================== *)

Module Double.

Definition prec : Z := 53.
Definition emax : Z := 1024.

(** Values of type [double]; NaN payloads are not distinguished. *)
Definition double : Type := spec_float.

Definition nan : double := S754_nan.
Definition zero : double := S754_zero false.

(** Conversion of an integer constant, rounding to nearest even. *)
Definition of_Z (z : Z) : double := binary_normalize prec emax z 0 false.

Definition add : double -> double -> double := SFadd prec emax.
Definition sub : double -> double -> double := SFsub prec emax.
Definition mul : double -> double -> double := SFmul prec emax.
Definition div : double -> double -> double := SFdiv prec emax.
Definition opp : double -> double := SFopp.
Definition abs : double -> double := SFabs.

Definition ltb (x y : double) : bool := SFltb x y.
Definition gtb (x y : double) : bool := SFltb y x.
Definition leb (x y : double) : bool := SFleb x y.
Definition eqb (x y : double) : bool := SFeqb x y.

(** [std::max(a, b)] is [(a < b) ? b : a]. *)
Definition std_max (a b : double) : double := if ltb a b then b else a.

Definition is_nan (x : double) : bool :=
  match x with S754_nan => true | _ => false end.

(** A decimal literal [num / 10^k] of the source text: the division of two
    exactly representable integers is correctly rounded, hence it is the
    binary64 value nearest to the literal. *)
Definition decimal (num den : Z) : double := div (of_Z num) (of_Z den).

End Double.

Export Double.

Declare Scope double_scope.
Delimit Scope double_scope with D.
Bind Scope double_scope with double.
Infix "+" := add : double_scope.
Infix "-" := sub : double_scope.
Infix "*" := mul : double_scope.
Infix "/" := div : double_scope.
Notation "- x" := (opp x) : double_scope.
Infix "<?" := ltb : double_scope.
Infix ">?" := gtb : double_scope.
Infix "=?" := eqb : double_scope.

(* ===================================================================== *)
(** ** Dense storage: [vector_t] and [matrix_t] *)
(* ===================================================================== *)

Module Storage.

(** [vector_t]: [V] with its [size]; the list length is [getSize()]. *)
Abbreviation vector_t := (list double).

(** [matrix_t]: [M] is an array of row handles, one list per row. *)
Abbreviation matrix_t := (list (list double)).

(** [V[i]] as an rvalue.  Indices come from loops bounded by [getSize()];
    out of range the C++ read is undefined and the model yields [0.0]. *)
Definition vget (V : vector_t) (i : nat) : double :=
  match V !! i with Some x => x | None => zero end.

(** [V[i] = x]. *)
Definition vset (V : vector_t) (i : nat) (x : double) : vector_t :=
  <[i := x]> V.

(** [A[i][j]] as an rvalue. *)
Definition mget (A : matrix_t) (i j : nat) : double :=
  match A !! i with Some r => vget r j | None => zero end.

(** [A[i][j] = x]. *)
Definition mset (A : matrix_t) (i j : nat) (x : double) : matrix_t :=
  alter (fun r => vset r j x) i A.

(** [std::swap(A[i], A[r])]: the two row handles are exchanged. *)
Definition swap_rows (A : matrix_t) (i r : nat) : matrix_t :=
  match A !! i, A !! r with
  | Some a, Some b => <[r := a]> (<[i := b]> A)
  | _, _ => A
  end.

(** [std::swap(B[i], B[r])]. *)
Definition swap_elems (B : vector_t) (i r : nat) : vector_t :=
  match B !! i, B !! r with
  | Some a, Some b => <[r := a]> (<[i := b]> B)
  | _, _ => B
  end.

(** An [n] by [n] matrix: [n] rows of [n] entries, as [matrix_t(n)] builds. *)
Definition square (n : nat) (A : matrix_t) : Prop :=
  length A = n /\ Forall (fun r => length r = n) A.

(** [for (int k = lo; k < hi; ++k) body(k)] over a state [S]. *)
Definition for_loop {S : Type} (lo hi : nat) (body : nat -> S -> S) (s : S) : S :=
  fold_left (fun s k => body k s) (seq lo (hi - lo)) s.

(** [for (int k = hi - 1; k >= lo; --k) body(k)]. *)
Definition for_down {S : Type} (hi lo : nat) (body : nat -> S -> S) (s : S) : S :=
  fold_left (fun s k => body k s) (rev (seq lo (hi - lo))) s.

End Storage.

Export Storage.

(* ===================================================================== *)
(** ** TBB algorithms on one worker thread *)
(* ===================================================================== *)

Module TBB.

(** [blocked_range<int>(begin, end, grainsize)]. *)
Record blocked_range : Type :=
  { r_begin : nat; r_end : nat; r_grainsize : nat }.

Definition r_size (r : blocked_range) : nat := r_end r - r_begin r.
Definition r_empty (r : blocked_range) : bool := negb (r_begin r <? r_end r).
Definition is_divisible (r : blocked_range) : bool := r_grainsize r <? r_size r.

(** The splitting constructor: the left part keeps [begin, middle), the new
    range takes [middle, end). *)
Definition do_split (r : blocked_range) : blocked_range * blocked_range :=
  let middle := r_begin r + (r_end r - r_begin r) / 2 in
  ({| r_begin := r_begin r; r_end := middle; r_grainsize := r_grainsize r |},
   {| r_begin := middle; r_end := r_end r; r_grainsize := r_grainsize r |}).

(** What the partitioner decided for a range.  The program runs the
    scheduler with a single worker ([task_scheduler_init init(1)]), so the
    pieces of a range are executed one after the other, in range order.
    - [Run]: the body is applied to the whole range;
    - [Reuse l r]: the range is split and the same body object handles both
      halves (the left half had finished when the right half started);
    - [Fork l r]: the range is split, the right half gets a body that starts
      from the identity, and the two results are joined.
    A split of a range that is not divisible is not performed. *)
Inductive schedule : Type :=
| Run
| Reuse (l r : schedule)
| Fork (l r : schedule).

Section Algorithms.
Context {St Val : Type}.

Fixpoint reduce_task (p : schedule) (r : blocked_range) (identity : Val)
    (real_body : blocked_range -> Val -> St -> Val * St)
    (reduction : Val -> Val -> Val) (v : Val) (s : St) : Val * St :=
  match p with
  | Run => real_body r v s
  | Reuse pl pr =>
      if is_divisible r then
        let '(rl, rr) := do_split r in
        let '(a, s1) := reduce_task pl rl identity real_body reduction v s in
        reduce_task pr rr identity real_body reduction a s1
      else real_body r v s
  | Fork pl pr =>
      if is_divisible r then
        let '(rl, rr) := do_split r in
        let '(a, s1) := reduce_task pl rl identity real_body reduction v s in
        let '(b, s2) := reduce_task pr rr identity real_body reduction identity s1 in
        (reduction a b, s2)
      else real_body r v s
  end.

(** [parallel_reduce(range, identity, real_body, reduction)]: the value of
    the reduction, and the state the bodies have written through their
    by-reference captures. *)
Definition parallel_reduce (p : schedule) (r : blocked_range) (identity : Val)
    (real_body : blocked_range -> Val -> St -> Val * St)
    (reduction : Val -> Val -> Val) (s : St) : Val * St :=
  if r_empty r then (identity, s)
  else reduce_task p r identity real_body reduction identity s.

Fixpoint for_task (p : schedule) (r : blocked_range)
    (body : blocked_range -> St -> St) (s : St) : St :=
  match p with
  | Run => body r s
  | Reuse pl pr | Fork pl pr =>
      if is_divisible r then
        let '(rl, rr) := do_split r in
        for_task pr rr body (for_task pl rl body s)
      else body r s
  end.

(** [parallel_for(range, body)]. *)
Definition parallel_for (p : schedule) (r : blocked_range)
    (body : blocked_range -> St -> St) (s : St) : St :=
  if r_empty r then s else for_task p r body s.

End Algorithms.

(** Two schedules used to run the model: no split at all, and splitting
    down to the grain size as long as the depth allows. *)
Definition unsplit : schedule := Run.

Fixpoint split_deep (fork : bool) (depth : nat) : schedule :=
  match depth with
  | O => Run
  | S d => if fork then Fork (split_deep fork d) (split_deep fork d)
           else Reuse (split_deep fork d) (split_deep fork d)
  end.

End TBB.

Export TBB.

(* ===================================================================== *)
(** ** Standard output and process exit *)
(* ===================================================================== *)

Module Proc.

(** What the program writes to standard output, one constructor per
    message of the source; numbers are kept as values, not as text. *)
Inductive output : Type :=
| OutSingular                                   (* "The matrix is singular!" *)
| OutUsage                                      (* the text of usage() *)
| OutConfig (seed size range : Z) (parallel : bool)  (* "r,n,g,p = ..." *)
| OutSystem (A : matrix_t) (B : vector_t)       (* "Matrix (A) | B" and print(A, B) *)
| OutNotImplemented                             (* "Parallel version not yet implemented" *)
| OutResult (X : list double)                   (* "Result X" and the entries *)
| OutVerificationFailed (i : nat) (ans b : double)
| OutVerificationSucceeded
| OutExecutionTime.                             (* "Total execution time: ..." *)

(** A computation either returns a value, or has called [exit(status)], or
    has thrown an exception that nothing catches, so that [std::terminate]
    aborts the process. *)
Inductive outcome (T : Type) : Type :=
| Returned (v : T)
| Exited (status : Z)
| Aborted.
Arguments Returned {T} v.
Arguments Exited {T} status.
Arguments Aborted {T}.

Definition proc (T : Type) : Type := list output * outcome T.

Definition ret {T} (v : T) : proc T := ([], Returned v).

Definition bind {T U} (m : proc T) (k : T -> proc U) : proc U :=
  match m with
  | (o, Returned v) => let '(o', r) := k v in (o ++ o', r)
  | (o, Exited st) => (o, Exited st)
  | (o, Aborted) => (o, Aborted)
  end.

Definition print (o : output) : proc unit := ([o], Returned tt).

Definition exit {T} (status : Z) : proc T := ([], Exited status).

(** An uncaught exception. *)
Definition throw {T} : proc T := ([], Aborted).

Definition stdout {T} (m : proc T) : list output := fst m.
Definition result {T} (m : proc T) : outcome T := snd m.

End Proc.

Export Proc.

Notation "x <- m ;; k" := (bind m (fun x => k))
  (at level 100, m at next level, right associativity).
Notation "m ;;; k" := (bind m (fun _ => k))
  (at level 100, right associativity).

(* ===================================================================== *)
(** ** [gauss]: elimination and back substitution *)
(* ===================================================================== *)

Section Gauss.

(** How the scheduler cuts the row range of column [i], for the pivot search
    and for the elimination sweep.  The source leaves this to TBB's default
    partitioner; every statement below holds for all choices. *)
Variable reduce_schedule : nat -> schedule.
Variable for_schedule : nat -> schedule.

(** The range body of the pivot search,
    [[&](blocked_range<int> &r, int row) { for (k = r.begin(); k != r.end(); ++k)
       if (abs(A[k][i]) > big) { big = abs(A[k][i]); row = k; }  return row; }].
    [row] is the parameter of the lambda; [big] is the variable of [gauss],
    captured by reference. *)
Definition pivot_body (A : matrix_t) (i : nat) (r : blocked_range)
    (row : nat) (big : double) : nat * double :=
  for_loop (r_begin r) (r_end r)
    (fun k '(row, big) =>
       if (abs (mget A k i) >? big)%D then (k, abs (mget A k i)) else (row, big))
    (row, big).

(** The reduction of the pivot search,
    [[&](int a, int b) -> int { if (abs(A[a][i]) > abs(A[b][i])) return a; else return b; }]. *)
Definition pivot_join (A : matrix_t) (i : nat) (a b : nat) : nat :=
  if (abs (mget A a i) >? abs (mget A b i))%D then a else b.

(** Lines 98 to 122: the variables [big] and [row] of [gauss] once the
    [parallel_reduce] statement has completed.  The value computed by
    [parallel_reduce] is not assigned to anything, and the bodies write their
    own parameter [row], so the [row] of [gauss] keeps its initial value.
    The identity [0.0] reaches the bodies as the row index [0]. *)
Definition pivot_search (A : matrix_t) (i : nat) : double * nat :=
  let big := abs (mget A i i) in
  let row := i in
  let '(_, big) :=
    parallel_reduce (reduce_schedule i)
      {| r_begin := i + 1; r_end := length A; r_grainsize := 2 |}
      0 (pivot_body A i) (pivot_join A i) big in
  (big, row).

(** The body of the [k] loop of the elimination sweep (lines 144 to 150). *)
Definition eliminate_row (i k : nat) (s : matrix_t * vector_t) : matrix_t * vector_t :=
  let '(A, B) := s in
  let c := (- mget A k i / mget A i i)%D in
  let A :=
    for_loop i (length A)
      (fun j A =>
         if i =? j then mset A k j zero
         else mset A k j (mget A k j + c * mget A i j)%D)
      A in
  (A, vset B k (vget B k + c * vget B i)%D).

(** The range body of the elimination sweep (lines 142 to 152). *)
Definition eliminate_body (i : nat) (r : blocked_range)
    (s : matrix_t * vector_t) : matrix_t * vector_t :=
  for_loop (r_begin r) (r_end r) (eliminate_row i) s.

(** One iteration of the column loop (lines 95 to 152). *)
Definition gauss_column (i : nat) (s : matrix_t * vector_t) : proc (matrix_t * vector_t) :=
  let '(A, B) := s in
  let '(big, row) := pivot_search A i in
  if (big =? zero)%D then
    print OutSingular ;;; exit (-1)
  else
    let A := swap_rows A i row in
    let B := swap_elems B i row in
    ret (parallel_for (for_schedule i)
           {| r_begin := i + 1; r_end := length A; r_grainsize := 2 |}
           (eliminate_body i) (A, B)).

(** The column loop over the given columns, in order. *)
Fixpoint gauss_columns (cols : list nat) (s : matrix_t * vector_t) : proc (matrix_t * vector_t) :=
  match cols with
  | [] => ret s
  | i :: cols => s' <- gauss_column i s ;; gauss_columns cols s'
  end.

(** The triangularisation, [for (int i = 0; i < A.getSize(); ++i)]. *)
Definition eliminate (A : matrix_t) (B : vector_t) : proc (matrix_t * vector_t) :=
  gauss_columns (seq 0 (length A)) (A, B).

(** The body of the back-substitution loop (lines 158 to 160). *)
Definition substitute (A : matrix_t) (i : nat) (s : vector_t * vector_t) : vector_t * vector_t :=
  let '(B, X) := s in
  let X := vset X i (vget B i / mget A i i)%D in
  let B := for_down i 0 (fun k B => vset B k (vget B k - mget A k i * vget X i)%D) B in
  (B, X).

(** Lines 157 to 161, [for (int i = A.getSize() - 1; i >= 0; --i)]. *)
Definition back_substitution (A : matrix_t) (B X : vector_t) : vector_t * vector_t :=
  for_down (length A) 0 (substitute A) (B, X).

(** [gauss(A, B, X)]: the final contents of [A], [B] and [X]. *)
Definition gauss (A : matrix_t) (B X : vector_t) : proc (matrix_t * vector_t * vector_t) :=
  s <- eliminate A B ;;
  let '(A, B) := s in
  let '(B, X) := back_substitution A B X in
  ret (A, B, X).

End Gauss.

(* ===================================================================== *)
(** ** [initializeFromSeed] *)
(* ===================================================================== *)

Section Initializer.

(** The standard library's random number facilities are taken as given:
    [engine] is the state of a [std::mt19937], [mt19937 seed] its
    constructor, and [uniform_real a b g] one call of a
    [std::uniform_real_distribution<double>(a, b)] on the engine [g], giving
    the number drawn and the engine after the call. *)
Variable engine : Type.
Variable mt19937 : Z -> engine.
Variable uniform_real : double -> double -> engine -> double * engine.

(** [-range] is computed on [unsigned int]. *)
Definition negate_unsigned (range : Z) : Z := (- range) mod 2 ^ 32.

(** One draw stored through [store]: [... = (double)(mt_rand())]. *)
Definition draw_into {T : Type} (a b : double) (store : T -> double -> T)
    (s : T * engine) : T * engine :=
  let '(t, g) := s in
  let '(x, g) := uniform_real a b g in
  (store t x, g).

(** [initializeFromSeed(seed, A, B, range)]: the contents of [A] and [B]
    after the call.  [mt_rand] is the distribution bound to one engine built
    from [seed]; the unused [seeder] has no effect. *)
Definition initializeFromSeed (seed : Z) (A : matrix_t) (B : vector_t)
    (range : Z) : matrix_t * vector_t :=
  let a := of_Z (negate_unsigned range) in
  let b := of_Z range in
  let mt_rand := mt19937 seed in
  let '(A, mt_rand) :=
    for_loop 0 (length A)
      (fun i => for_loop 0 (length A)
         (fun j => draw_into a b (fun A x => mset A i j x)))
      (A, mt_rand) in
  let '(B, _) :=
    for_loop 0 (length B)
      (fun i => draw_into a b (fun B x => vset B i x))
      (B, mt_rand) in
  (A, B).

End Initializer.

(* ===================================================================== *)
(** ** [check] *)
(* ===================================================================== *)

(** The literals [0.999999] and [1.00001]. *)
Definition ratio_low : double := decimal 999999 1000000.
Definition ratio_high : double := decimal 100001 100000.

(** [ans], the value of [B[i]] recomputed from [X] (lines 174 to 176). *)
Definition row_product (A : matrix_t) (X : vector_t) (i : nat) : double :=
  for_loop 0 (length A) (fun j ans => (ans + mget A i j * vget X j)%D) zero.

(** [ratio] of line 180. *)
Definition row_ratio (A : matrix_t) (B X : vector_t) (i : nat) : double :=
  let ans := row_product A X i in
  std_max (abs (ans / vget B i)) (abs (vget B i / ans)).

(** The test of line 181. *)
Definition row_fails (A : matrix_t) (B X : vector_t) (i : nat) : bool :=
  (row_ratio A B X i <? ratio_low)%D || (row_ratio A B X i >? ratio_high)%D.

(** The row loop of [check] over the given rows; a failing row prints and
    returns from [check]. *)
Fixpoint check_rows (rows : list nat) (A : matrix_t) (B X : vector_t) : proc unit :=
  match rows with
  | [] => print OutVerificationSucceeded
  | i :: rows =>
      if row_fails A B X i then
        print (OutVerificationFailed i (row_product A X i) (vget B i))
      else check_rows rows A B X
  end.

(** [check(A, B, X)]. *)
Definition check (A : matrix_t) (B X : vector_t) : proc unit :=
  check_rows (seq 0 (length A)) A B X.

(* ===================================================================== *)
(** ** [main] *)
(* ===================================================================== *)

(** The configuration variables of [main]. *)
Record config : Type :=
  { seed : Z; size : Z; range : Z; verbose : bool; docheck : bool; parallel : bool }.

Definition initial_config : config :=
  {| seed := 411; size := 2048; range := 65536;
     verbose := false; docheck := true; parallel := false |}.

Definition is_space (c : ascii) : bool :=
  let n := nat_of_ascii c in (n =? 32) || ((9 <=? n) && (n <=? 13)).

Definition is_digit (c : ascii) : bool :=
  let n := nat_of_ascii c in (48 <=? n) && (n <=? 57).

Fixpoint atoi_digits (s : string) (acc : Z) : Z :=
  match s with
  | String c s' =>
      if is_digit c then atoi_digits s' (10 * acc + Z.of_nat (nat_of_ascii c - 48))%Z
      else acc
  | EmptyString => acc
  end.

(** The number a text denotes: leading white space, an optional sign, then
    decimal digits up to the first character that is not a digit. *)
Fixpoint decimal_value (s : string) : Z :=
  match s with
  | String c s' =>
      if is_space c then decimal_value s'
      else if Ascii.eqb c "-" then (- atoi_digits s' 0)%Z
      else if Ascii.eqb c "+" then atoi_digits s' 0
      else atoi_digits s 0
  | EmptyString => 0%Z
  end.

(** [strtol(s, NULL, 10)] with a 64-bit [long]: a value out of range is
    replaced by [LONG_MIN] or [LONG_MAX]. *)
Definition strtol (s : string) : Z :=
  Z.max (- 2 ^ 63) (Z.min (2 ^ 63 - 1) (decimal_value s)).

(** Conversion to a 32-bit [int], by wrap-around. *)
Definition to_int (z : Z) : Z := ((z + 2 ^ 31) mod 2 ^ 32 - 2 ^ 31)%Z.

(** Conversion of an [int] to [unsigned int]. *)
Definition to_unsigned (z : Z) : Z := (z mod 2 ^ 32)%Z.

(** [atoi] of the C library, [(int) strtol(s, NULL, 10)]: the variables
    [seed], [size] and [range] of [main] are of type [int]. *)
Definition atoi (s : string) : Z := to_int (strtol s).

(** The body of the [switch (o)] of the option loop (lines 224 to 249), for
    one value [o] returned by [getopt] together with [optarg]. *)
Definition handle_option (o : ascii) (optarg : string) (c : config) : proc config :=
  if Ascii.eqb o "r" then
    ret {| seed := atoi optarg; size := size c; range := range c;
           verbose := verbose c; docheck := docheck c; parallel := parallel c |}
  else if Ascii.eqb o "n" then
    ret {| seed := seed c; size := atoi optarg; range := range c;
           verbose := verbose c; docheck := docheck c; parallel := parallel c |}
  else if Ascii.eqb o "g" then
    ret {| seed := seed c; size := size c; range := atoi optarg;
           verbose := verbose c; docheck := docheck c; parallel := parallel c |}
  else if Ascii.eqb o "h" then
    print OutUsage ;;; ret c
  else if Ascii.eqb o "v" then
    ret {| seed := seed c; size := size c; range := range c;
           verbose := negb (verbose c); docheck := docheck c; parallel := parallel c |}
  else if Ascii.eqb o "c" then
    ret {| seed := seed c; size := size c; range := range c;
           verbose := verbose c; docheck := negb (docheck c); parallel := parallel c |}
  else if Ascii.eqb o "p" then
    ret {| seed := seed c; size := size c; range := range c;
           verbose := verbose c; docheck := docheck c; parallel := negb (parallel c) |}
  else
    print OutUsage ;;; exit (-1).

(** The option loop, [while ((o = getopt(argc, argv, "r:n:g:hvcp")) != -1)]:
    [opts] lists what the successive calls of [getopt] return before [-1],
    each with the [optarg] it sets. *)
Fixpoint parse_options (opts : list (ascii * string)) (c : config) : proc config :=
  match opts with
  | [] => ret c
  | (o, optarg) :: opts => c' <- handle_option o optarg c ;; parse_options opts c'
  end.

Section Main.

Variable reduce_schedule : nat -> schedule.
Variable for_schedule : nat -> schedule.
Variable engine : Type.
Variable mt19937 : Z -> engine.
Variable uniform_real : double -> double -> engine -> double * engine.

(** [heap k j] is what cell [j] of the [k]-th array allocated by [main]
    holds before the program writes it ([new double[n]] does not
    initialise). *)
Variable heap : nat -> nat -> double.

(** [memory n] tells whether [operator new] can provide the storage of an
    [n] by [n] matrix and of two vectors of [n] entries on the machine the
    program runs on. *)
Variable memory : Z -> bool.

Definition new_array (k n : nat) : list double := map (heap k) (seq 0 n).

(** Whether one of the allocations of lines 258 to 260 throws
    [std::bad_alloc].  [size] is converted to [unsigned int]; a negative
    [size] becomes a dimension of at least [2^31], for which the rows of the
    matrix alone would take [2^65] bytes. *)
Definition allocation_fails (size : Z) : bool :=
  (2 ^ 31 <=? to_unsigned size)%Z || negb (memory (to_unsigned size)).

(** Lines 258 to 260, [matrix_t A(size); vector_t B(size); vector_t X(size);].
    [main] has no handler for [std::bad_alloc]. *)
Definition allocate (size : Z) : proc (matrix_t * vector_t * vector_t) :=
  if allocation_fails size then throw
  else
    let n := Z.to_nat (to_unsigned size) in
    ret (map (fun k => new_array k n) (seq 0 n), new_array n n, new_array (n + 1) n).

(** Lines 271 to 274. *)
Definition solve (parallel : bool) (A : matrix_t) (B X : vector_t)
    : proc (matrix_t * vector_t * vector_t) :=
  if parallel then
    print OutNotImplemented ;;; ret (A, B, X)
  else
    gauss reduce_schedule for_schedule A B X.

(** Lines 252 to 297, once the options are parsed.  The value returned is
    the one [main] returns, [0] when control reaches its end. *)
Definition run (c : config) : proc Z :=
  print (OutConfig (seed c) (size c) (range c) (parallel c)) ;;;
  m <- allocate (size c) ;;
  let '(A, B, X) := m in
  let '(A, B) := initializeFromSeed engine mt19937 uniform_real (seed c) A B (range c mod 2 ^ 32) in
  (if verbose c then print (OutSystem A B) else ret tt) ;;;
  s <- solve (parallel c) A B X ;;
  let '(A, B, X) := s in
  (if verbose c then print (OutResult (map (vget X) (seq 0 (length A)))) else ret tt) ;;;
  (if docheck c then
     let '(A, B) := initializeFromSeed engine mt19937 uniform_real (seed c) A B (range c mod 2 ^ 32) in
     check A B X
   else ret tt) ;;;
  print OutExecutionTime ;;;
  ret 0%Z.

(** [main], given what [getopt] yields for the command line. *)
Definition main (opts : list (ascii * string)) : proc Z :=
  c <- parse_options opts initial_config ;;
  run c.

(** The exit status of the process, when it ends by returning from [main]
    or by [exit]; a process that is aborted has none. *)
Definition exit_status (m : proc Z) : option Z :=
  match result m with
  | Returned v => Some v
  | Exited st => Some st
  | Aborted => None
  end.

End Main.

(* ===================================================================== *)
(** * Vocabulary of the statements *)
(* ===================================================================== *)

(** The running maximum that the pivot search keeps in [big]. *)
Definition running_max (A : matrix_t) (i lo hi : nat) (big : double) : double :=
  for_loop lo hi
    (fun k big => if (abs (mget A k i) >? big)%D then abs (mget A k i) else big)
    big.

(** The sweep of column [i] written as a plain loop over the rows. *)
Definition sweep (i : nat) (s : matrix_t * vector_t) : matrix_t * vector_t :=
  for_loop (i + 1) (length (fst s)) (eliminate_row i) s.

(** [m] is the maximum of [|A[k][i]|] over the rows [i <= k < n]. *)
Definition column_maximum (A : matrix_t) (i n : nat) (m : double) : Prop :=
  (exists k, i <= k < n /\ m = abs (mget A k i)) /\
  (forall k, i <= k < n -> leb (abs (mget A k i)) m = true).

(** No entry of column [i] in the rows [i <= k < n] is a NaN. *)
Definition column_numeric (A : matrix_t) (i n : nat) : Prop :=
  forall k, i <= k < n -> is_nan (mget A k i) = false.

(** The factor [c] of row [k] in column [i]. *)
Definition factor (A : matrix_t) (i k : nat) : double :=
  (- mget A k i / mget A i i)%D.

(** Row [k] is untouched left of column [i], zero in column [i] and
    corrected by [c] times row [i] right of it. *)
Definition row_eliminated (A A' : matrix_t) (i k n : nat) : Prop :=
  mget A' k i = zero /\
  (forall j, i < j < n -> mget A' k j = (mget A k j + factor A i k * mget A i j)%D) /\
  (forall j, j < i -> mget A' k j = mget A k j).

(** The columns before [c] are zero below the diagonal. *)
Definition eliminated_upto (c n : nat) (A : matrix_t) : Prop :=
  forall i k, i < c -> i < k < n -> mget A k i = zero.

(** The ratio of row [i] lies in the window [0.999999, 1.00001]. *)
Definition ratio_in_window (A : matrix_t) (B X : vector_t) (i : nat) : Prop :=
  leb ratio_low (row_ratio A B X i) = true /\
  leb (row_ratio A B X i) ratio_high = true.

(** How many times [getopt] returned the option [f]. *)
Fixpoint occurrences (f : ascii) (opts : list (ascii * string)) : nat :=
  match opts with
  | [] => 0
  | (o, _) :: opts => (if Ascii.eqb o f then 1 else 0) + occurrences f opts
  end.

(** A number that is neither an infinity nor a NaN. *)
Definition is_finite (x : double) : bool :=
  match x with
  | S754_zero _ | S754_finite _ _ _ => true
  | _ => false
  end.

(** The value left in a numeric configuration variable: [atoi] of the
    argument of the last occurrence of the option [f], or [d] when the option
    does not occur. *)
Fixpoint last_value (f : ascii) (opts : list (ascii * string)) (d : Z) : Z :=
  match opts with
  | [] => d
  | (o, optarg) :: opts => last_value f opts (if Ascii.eqb o f then atoi optarg else d)
  end.

(** The values of type [int]. *)
Definition is_int (z : Z) : Prop := (- 2 ^ 31 <= z < 2 ^ 31)%Z.

(** The option characters of the string ["r:n:g:hvcp"]. *)
Definition is_known (o : ascii) : bool :=
  existsb (Ascii.eqb o) ["r"; "n"; "g"; "h"; "v"; "c"; "p"]%char.

(** The engine after [k] draws from the distribution with bounds [a], [b],
    and the number that draw [k] (counted from [0]) yields. *)
Definition engine_after {engine : Type}
    (uniform_real : double -> double -> engine -> double * engine)
    (a b : double) (g : engine) (k : nat) : engine :=
  Nat.iter k (fun g => snd (uniform_real a b g)) g.

Definition nth_draw {engine : Type}
    (uniform_real : double -> double -> engine -> double * engine)
    (a b : double) (g : engine) (k : nat) : double :=
  fst (uniform_real a b (engine_after uniform_real a b g k)).

(* ===================================================================== *)
(** * Data to run the model on *)
(* ===================================================================== *)

(** Matrices and vectors with integer entries. *)
Definition M_of (rows : list (list Z)) : matrix_t := map (map of_Z) rows.
Definition V_of (xs : list Z) : vector_t := map of_Z xs.

(** What [getopt] yields for a flag, and for an option with its argument. *)
Definition flag (o : ascii) : ascii * string := (o, EmptyString).
Definition option_arg (o : ascii) (optarg : string) : ascii * string := (o, optarg).

(** The classical example: 2x + y - z = 8, -3x - y + 2z = -11, -2x + y + 2z = -3. *)
Definition textbook_A : matrix_t := M_of [[2; 1; -1]; [-3; -1; 2]; [-2; 1; 2]]%Z.
Definition textbook_B : vector_t := V_of [8; -11; -3]%Z.
Definition unsplit_all : nat -> schedule := fun _ => unsplit.
Definition split_all : nat -> schedule := fun _ => split_deep true 4.


(** A machine on which every allocation succeeds that can succeed, and a
    heap that holds zeros. *)
Definition ample_memory : Z -> bool := fun _ => true.
Definition zeroed_heap : nat -> nat -> double := fun _ _ => zero.

(** A stand-in for the random number library, to run the model: the engine
    is a counter, a draw is [a] plus the counter. *)
Definition counter_engine : Type := Z.
Definition counter_seed (seed : Z) : counter_engine := seed.
Definition counter_draw (a b : double) (g : counter_engine) : double * counter_engine :=
  ((a + of_Z g)%D, (g + 1)%Z).

(* ===================================================================== *)
(** * Properties *)
(* ===================================================================== *)

(** ** Loops *)

Lemma for_loop_nil {St : Type} lo hi (body : nat -> St -> St) s :
  hi <= lo -> for_loop lo hi body s = s.
Proof.
  intros H. unfold for_loop. replace (hi - lo) with 0 by lia. reflexivity.
Qed.

Lemma for_loop_snoc {St : Type} lo hi (body : nat -> St -> St) s :
  lo <= hi -> for_loop lo (S hi) body s = body hi (for_loop lo hi body s).
Proof.
  intros H. unfold for_loop.
  replace (S hi - lo) with (S (hi - lo)) by lia.
  rewrite seq_S, fold_left_app. simpl.
  replace (lo + (hi - lo)) with hi by lia. reflexivity.
Qed.

Lemma for_loop_cons {St : Type} lo hi (body : nat -> St -> St) s :
  lo < hi -> for_loop lo hi body s = for_loop (S lo) hi body (body lo s).
Proof.
  intros H. unfold for_loop.
  replace (hi - lo) with (S (hi - S lo)) by lia. reflexivity.
Qed.

Lemma for_loop_app {St : Type} lo mid hi (body : nat -> St -> St) s :
  lo <= mid -> mid <= hi ->
  for_loop lo hi body s = for_loop mid hi body (for_loop lo mid body s).
Proof.
  intros H1 H2. unfold for_loop.
  replace (hi - lo) with ((mid - lo) + (hi - mid)) by lia.
  rewrite seq_app, fold_left_app.
  replace (lo + (mid - lo)) with mid by lia. reflexivity.
Qed.

(** Invariant rule for an ascending loop. *)
Lemma for_loop_ind {St : Type} (P : nat -> St -> Prop) lo hi (body : nat -> St -> St) s :
  lo <= hi ->
  P lo s ->
  (forall k t, lo <= k < hi -> P k t -> P (S k) (body k t)) ->
  P hi (for_loop lo hi body s).
Proof.
  intros Hle H0 Hstep. induction hi as [|hi IH].
  - assert (lo = 0) by lia. subst. rewrite for_loop_nil by lia. exact H0.
  - destruct (decide (lo = S hi)) as [->|Hne].
    + rewrite for_loop_nil by lia. exact H0.
    + rewrite for_loop_snoc by lia. apply Hstep; [lia|].
      apply IH; [lia|]. intros k t Hk. apply Hstep. lia.
Qed.

(** Invariant rule for two runs of the same loop, side by side. *)
Lemma for_loop_ind2 {St T : Type} (R : nat -> St -> T -> Prop) lo hi
    (f : nat -> St -> St) (g : nat -> T -> T) s t :
  lo <= hi ->
  R lo s t ->
  (forall k s t, lo <= k < hi -> R k s t -> R (S k) (f k s) (g k t)) ->
  R hi (for_loop lo hi f s) (for_loop lo hi g t).
Proof.
  intros Hle H0 Hstep. induction hi as [|hi IH].
  - assert (lo = 0) by lia. subst. rewrite !for_loop_nil by lia. exact H0.
  - destruct (decide (lo = S hi)) as [->|Hne].
    + rewrite !for_loop_nil by lia. exact H0.
    + rewrite !for_loop_snoc by lia. apply Hstep; [lia|].
      apply IH; [lia|]. intros k s' t' Hk. apply Hstep. lia.
Qed.

Lemma for_down_nil {St : Type} hi lo (body : nat -> St -> St) s :
  hi <= lo -> for_down hi lo body s = s.
Proof.
  intros H. unfold for_down. replace (hi - lo) with 0 by lia. reflexivity.
Qed.

(** A descending loop from [hi - 1] to [lo] ends with its iteration [lo]. *)
Lemma for_down_last {St : Type} hi lo (body : nat -> St -> St) s :
  lo < hi -> for_down hi lo body s = body lo (for_down hi (S lo) body s).
Proof.
  intros H. unfold for_down.
  replace (hi - lo) with (S (hi - S lo)) by lia.
  simpl. rewrite fold_left_app. reflexivity.
Qed.

(** A descending loop starts with its iteration [hi - 1]. *)
Lemma for_down_first {St : Type} hi lo (body : nat -> St -> St) s :
  lo <= hi -> for_down (S hi) lo body s = for_down hi lo body (body hi s).
Proof.
  intros H. unfold for_down.
  replace (S hi - lo) with (S (hi - lo)) by lia.
  rewrite seq_S, rev_app_distr. simpl.
  replace (lo + (hi - lo)) with hi by lia. reflexivity.
Qed.

(** Invariant rule for a descending loop: [P k] holds when the iterations
    [hi - 1], ..., [k] are done. *)
Lemma for_down_ind {St : Type} (P : nat -> St -> Prop) hi lo (body : nat -> St -> St) s :
  lo <= hi ->
  P hi s ->
  (forall k t, lo <= k < hi -> P (S k) t -> P k (body k t)) ->
  P lo (for_down hi lo body s).
Proof.
  intros Hle H0 Hstep.
  remember (hi - lo) as d eqn:Hd. revert lo Hle Hd Hstep.
  induction d as [|d IH]; intros lo Hle Hd Hstep.
  - assert (lo = hi) by lia. subst. rewrite for_down_nil by lia. exact H0.
  - rewrite for_down_last by lia. apply Hstep; [lia|].
    apply IH; [lia|lia|]. intros k t Hk. apply Hstep. lia.
Qed.

(** ** Storage *)

Lemma vget_vset_eq (V : vector_t) i x : i < length V -> vget (vset V i x) i = x.
Proof.
  intros H. unfold vget, vset. rewrite list_lookup_insert_eq by exact H. reflexivity.
Qed.

Lemma vget_vset_ne (V : vector_t) i j x : i <> j -> vget (vset V i x) j = vget V j.
Proof.
  intros H. unfold vget, vset. rewrite list_lookup_insert_ne by exact H. reflexivity.
Qed.

Lemma length_vset (V : vector_t) i x : length (vset V i x) = length V.
Proof. apply length_insert. Qed.

Lemma length_mset (A : matrix_t) i j x : length (mset A i j x) = length A.
Proof. unfold mset. apply length_alter. Qed.

Lemma mget_mset_eq (A : matrix_t) i j x r :
  A !! i = Some r -> j < length r -> mget (mset A i j x) i j = x.
Proof.
  intros Hr Hj. unfold mget, mset.
  rewrite list_lookup_alter_eq, Hr. simpl. apply vget_vset_eq, Hj.
Qed.

Lemma mget_mset_ne (A : matrix_t) i j i' j' x :
  i <> i' \/ j <> j' -> mget (mset A i j x) i' j' = mget A i' j'.
Proof.
  intros H. unfold mget, mset.
  destruct (decide (i = i')) as [->|Hi].
  - rewrite list_lookup_alter_eq. destruct (A !! i') as [r|]; simpl; [|reflexivity].
    apply vget_vset_ne. destruct H; congruence.
  - rewrite list_lookup_alter_ne by exact Hi. reflexivity.
Qed.

Lemma lookup_mset_ne (A : matrix_t) i j i' x :
  i <> i' -> mset A i j x !! i' = A !! i'.
Proof. intros H. unfold mset. apply list_lookup_alter_ne, H. Qed.

Lemma square_lookup n (A : matrix_t) i :
  square n A -> i < n -> exists r, A !! i = Some r /\ length r = n.
Proof.
  intros [Hl Hr] Hi.
  destruct (lookup_lt_is_Some_2 A i) as [r Hlk]; [lia|].
  exists r. split; [exact Hlk|].
  rewrite Forall_lookup in Hr. exact (Hr i r Hlk).
Qed.

Lemma square_mset n (A : matrix_t) i j x : square n A -> square n (mset A i j x).
Proof.
  intros [Hl Hr]. split; [rewrite length_mset; exact Hl|].
  unfold mset. rewrite Forall_lookup in *. intros k r Hk.
  destruct (decide (i = k)) as [->|Hne].
  - rewrite list_lookup_alter_eq in Hk.
    destruct (A !! k) as [r0|] eqn:E; simpl in Hk; [|discriminate].
    injection Hk as <-. rewrite length_vset. exact (Hr k r0 E).
  - rewrite list_lookup_alter_ne in Hk by exact Hne. exact (Hr k r Hk).
Qed.

Lemma mget_mset_square n (A : matrix_t) i j x :
  square n A -> i < n -> j < n -> mget (mset A i j x) i j = x.
Proof.
  intros HA Hi Hj. destruct (square_lookup n A i HA Hi) as (r & Hr & Hlen).
  apply (mget_mset_eq A i j x r Hr). lia.
Qed.

(** Exchanging a row with itself changes nothing. *)
Lemma swap_rows_same (A : matrix_t) i : swap_rows A i i = A.
Proof.
  unfold swap_rows. destruct (A !! i) as [a|] eqn:E; [|reflexivity].
  rewrite list_insert_insert_eq. apply list_insert_id, E.
Qed.

Lemma swap_elems_same (B : vector_t) i : swap_elems B i i = B.
Proof.
  unfold swap_elems. destruct (B !! i) as [a|] eqn:E; [|reflexivity].
  rewrite list_insert_insert_eq. apply list_insert_id, E.
Qed.

(** ** The schedule of a parallel algorithm does not change its effect *)

#[local] Arguments do_split : simpl never.
#[local] Arguments is_divisible : simpl never.

Lemma do_split_bounds r rl rr :
  r_begin r <= r_end r -> do_split r = (rl, rr) ->
  r_begin rl = r_begin r /\ r_end rl = r_begin rr /\ r_end rr = r_end r /\
  r_begin r <= r_begin rr <= r_end r.
Proof.
  intros Hle Hs. unfold do_split in Hs.
  assert (Hd : (r_end r - r_begin r) / 2 <= r_end r - r_begin r)
    by (apply Nat.Div0.div_le_upper_bound; lia).
  set (d := (r_end r - r_begin r) / 2) in *.
  injection Hs as <- <-. simpl. lia.
Qed.

(** A body that loops over its range gives, under every schedule, the loop
    over the whole range. *)
Lemma for_task_loop {St : Type} (f : nat -> St -> St) p r s :
  r_begin r <= r_end r ->
  for_task p r (fun r => for_loop (r_begin r) (r_end r) f) s
  = for_loop (r_begin r) (r_end r) f s.
Proof.
  revert r s.
  induction p as [|pl IHl pr IHr|pl IHl pr IHr]; intros r s Hle;
    cbn [for_task]; try reflexivity.
  all: destruct (is_divisible r); [|reflexivity].
  all: destruct (do_split r) as [rl rr] eqn:Hs.
  all: destruct (do_split_bounds r rl rr Hle Hs) as (H1 & H2 & H3 & H4).
  all: rewrite IHl, IHr by lia.
  all: rewrite H1, H2, H3; symmetry; apply for_loop_app; lia.
Qed.

Lemma parallel_for_loop {St : Type} (f : nat -> St -> St) p r s :
  parallel_for p r (fun r => for_loop (r_begin r) (r_end r) f) s
  = for_loop (r_begin r) (r_end r) f s.
Proof.
  unfold parallel_for, r_empty.
  destruct (Nat.ltb_spec (r_begin r) (r_end r)); simpl.
  - apply for_task_loop. lia.
  - rewrite for_loop_nil by lia. reflexivity.
Qed.

Lemma pivot_body_big A i r row big :
  snd (pivot_body A i r row big) = running_max A i (r_begin r) (r_end r) big.
Proof.
  unfold pivot_body, running_max.
  destruct (Nat.le_gt_cases (r_begin r) (r_end r)) as [Hle|Hgt].
  - apply (for_loop_ind2 (fun _ (s : nat * double) (t : double) => snd s = t));
      [exact Hle|reflexivity|].
    intros k [row' big'] t _ Ht. simpl in Ht. subst t.
    destruct (abs (mget A k i) >? big')%D; reflexivity.
  - rewrite !for_loop_nil by lia. reflexivity.
Qed.

Lemma reduce_task_big A i p r v big :
  r_begin r <= r_end r ->
  snd (reduce_task p r 0 (pivot_body A i) (pivot_join A i) v big)
  = running_max A i (r_begin r) (r_end r) big.
Proof.
  revert r v big.
  induction p as [|pl IHl pr IHr|pl IHl pr IHr]; intros r v big Hle;
    cbn [reduce_task].
  - apply pivot_body_big.
  - destruct (is_divisible r); [|apply pivot_body_big].
    destruct (do_split r) as [rl rr] eqn:Hs.
    destruct (do_split_bounds r rl rr Hle Hs) as (H1 & H2 & H3 & H4).
    specialize (IHl rl v big).
    destruct (reduce_task pl rl 0 (pivot_body A i) (pivot_join A i) v big) as [a s1].
    simpl in IHl. rewrite IHr, IHl by lia.
    rewrite H1, H2, H3. symmetry. apply for_loop_app; lia.
  - destruct (is_divisible r); [|apply pivot_body_big].
    destruct (do_split r) as [rl rr] eqn:Hs.
    destruct (do_split_bounds r rl rr Hle Hs) as (H1 & H2 & H3 & H4).
    specialize (IHl rl v big).
    destruct (reduce_task pl rl 0 (pivot_body A i) (pivot_join A i) v big) as [a s1].
    simpl in IHl.
    specialize (IHr rr 0 s1).
    destruct (reduce_task pr rr 0 (pivot_body A i) (pivot_join A i) 0 s1) as [b s2].
    simpl in *. rewrite IHr, IHl by lia.
    rewrite H1, H2, H3. symmetry. apply for_loop_app; lia.
Qed.

(** What [big] and [row] hold after the pivot search, for every schedule. *)
Lemma pivot_search_spec rs A i :
  pivot_search rs A i
  = (running_max A i (i + 1) (length A) (abs (mget A i i)), i).
Proof.
  unfold pivot_search, parallel_reduce, r_empty. simpl.
  destruct (Nat.ltb_spec (i + 1) (length A)); simpl.
  - pose proof (reduce_task_big A i (rs i)
      {| r_begin := i + 1; r_end := length A; r_grainsize := 2 |}
      0 (abs (mget A i i))) as Hb. simpl in Hb.
    destruct (reduce_task _ _ _ _ _ _ _) as [v big]. simpl in Hb.
    rewrite Hb by lia. reflexivity.
  - unfold running_max. rewrite for_loop_nil by lia. reflexivity.
Qed.

(** One column of [gauss], for every schedule: the singularity test on the
    running maximum, then the sweep of the rows below; the rows of [A] and
    the entries of [B] stay where they are. *)
Lemma gauss_column_spec rs fs i A B :
  gauss_column rs fs i (A, B)
  = if (running_max A i (i + 1) (length A) (abs (mget A i i)) =? zero)%D
    then ([OutSingular], Exited (-1)%Z)
    else ([], Returned (sweep i (A, B))).
Proof.
  unfold gauss_column. rewrite pivot_search_spec.
  destruct (_ =? zero)%D; [reflexivity|].
  rewrite swap_rows_same, swap_elems_same.
  unfold eliminate_body. rewrite parallel_for_loop. reflexivity.
Qed.

(** ** Order facts on magnitudes *)

Ltac by_cases_on x := destruct x as [[]|[]| |[] ? ?]; simpl in *; try discriminate; try reflexivity.

Lemma abs_not_nan x : is_nan x = false -> is_nan (abs x) = false.
Proof. by_cases_on x. Qed.

Lemma abs_abs x : abs (abs x) = abs x.
Proof. by_cases_on x. Qed.

Lemma eqb_zero_abs x : (abs x =? zero)%D = (x =? zero)%D.
Proof. by_cases_on x. Qed.

(** Two zeros do not compare greater. *)
Lemma gtb_zeros x y :
  (x =? zero)%D = true -> (y =? zero)%D = true -> (x >? y)%D = false.
Proof. intros Hx Hy. by_cases_on x; by_cases_on y. Qed.

Lemma leb_zeros x y :
  (x =? zero)%D = true -> (y =? zero)%D = true -> leb x y = true.
Proof. intros Hx Hy. by_cases_on x; by_cases_on y. Qed.

(** A magnitude greater than another magnitude is not zero. *)
Lemma gtb_abs_nonzero x y :
  (abs x >? abs y)%D = true -> (abs x =? zero)%D = false.
Proof. intros H. by_cases_on x; by_cases_on y. Qed.

(** A magnitude that is not greater than a zero is zero. *)
Lemma not_gtb_zero x z :
  is_nan x = false -> (abs x >? z)%D = false -> (z =? zero)%D = true ->
  (abs x =? zero)%D = true.
Proof. intros Hn Hg Hz. by_cases_on x; by_cases_on z. Qed.

Lemma leb_abs_zero x z :
  leb (abs x) z = true -> (z =? zero)%D = true -> (abs x =? zero)%D = true.
Proof. intros Hl Hz. by_cases_on x; by_cases_on z. Qed.

(** Comparison of two positive finite numbers: by exponent, then mantissa. *)
Lemma leb_finite m1 e1 m2 e2 :
  leb (S754_finite false m1 e1) (S754_finite false m2 e2) = true
  <-> (e1 < e2)%Z \/ (e1 = e2 /\ (m1 <= m2)%positive).
Proof.
  unfold leb, SFleb. simpl.
  destruct (Z.compare_spec e1 e2) as [He|He|He].
  - fold (Pos.compare m1 m2).
    destruct (Pos.compare_spec m1 m2) as [Hm|Hm|Hm]; split; intros H;
      try discriminate; try reflexivity; try (right; split; [exact He|lia]).
    destruct H as [H|[_ H]]; lia.
  - split; [intros _; left; exact He|reflexivity].
  - split; [discriminate|intros [H|[H _]]; lia].
Qed.

Lemma ltb_finite m1 e1 m2 e2 :
  ltb (S754_finite false m1 e1) (S754_finite false m2 e2) = true
  <-> (e1 < e2)%Z \/ (e1 = e2 /\ (m1 < m2)%positive).
Proof.
  unfold ltb, SFltb. simpl.
  destruct (Z.compare_spec e1 e2) as [He|He|He].
  - fold (Pos.compare m1 m2).
    destruct (Pos.compare_spec m1 m2) as [Hm|Hm|Hm]; split; intros H;
      try discriminate; try reflexivity; try (right; split; [exact He|lia]).
    + destruct H as [H|[_ H]]; lia.
    + destruct H as [H|[_ H]]; lia.
  - split; [intros _; left; exact He|reflexivity].
  - split; [discriminate|intros [H|[H _]]; lia].
Qed.

(** On magnitudes that are numbers, "not greater" is "less or equal". *)
Lemma not_gtb_leb x y :
  is_nan x = false -> is_nan y = false ->
  (abs x >? abs y)%D = false -> leb (abs x) (abs y) = true.
Proof.
  intros Hx Hy H. by_cases_on x; by_cases_on y.
  all: apply leb_finite.
  all: match goal with
       | H : (S754_finite false ?m1 ?e1 >? S754_finite false ?m2 ?e2)%D = false |- _ =>
           destruct (ltb (S754_finite false m2 e2) (S754_finite false m1 e1)) eqn:E;
           [unfold gtb in H; unfold ltb in E; congruence|];
           assert (N : ~ ((e2 < e1)%Z \/ (e2 = e1 /\ (m2 < m1)%positive)))
             by (rewrite <- ltb_finite; congruence)
       end.
  all: lia.
Qed.

Lemma gtb_leb x y :
  (abs x >? abs y)%D = true -> leb (abs y) (abs x) = true.
Proof.
  intros H. by_cases_on x; by_cases_on y.
  all: apply leb_finite.
  all: unfold gtb in H; fold (ltb (S754_finite false m0 e0) (S754_finite false m e)) in H.
  all: apply ltb_finite in H; lia.
Qed.

Lemma leb_abs_refl x : is_nan x = false -> leb (abs x) (abs x) = true.
Proof.
  intros H. by_cases_on x.
  all: apply leb_finite; right; split; [reflexivity|lia].
Qed.

Lemma leb_abs_trans x y z :
  leb (abs x) (abs y) = true -> leb (abs y) (abs z) = true ->
  leb (abs x) (abs z) = true.
Proof.
  intros H1 H2. by_cases_on x; by_cases_on y; by_cases_on z.
  all: apply leb_finite; apply leb_finite in H1; apply leb_finite in H2; lia.
Qed.

(** ** The pivot search computes the largest magnitude of the column *)

Lemma running_max_is_maximum A i n :
  i < n -> column_numeric A i n ->
  column_maximum A i n (running_max A i (i + 1) n (abs (mget A i i))).
Proof.
  intros Hi Hnum. unfold running_max.
  apply (for_loop_ind (fun hi big =>
    (exists k, i <= k < hi /\ big = abs (mget A k i)) /\
    (forall k, i <= k < hi -> leb (abs (mget A k i)) big = true))); [lia| |].
  - split.
    + exists i. split; [lia|reflexivity].
    + intros k Hk. assert (k = i) by lia. subst k.
      apply leb_abs_refl, Hnum. lia.
  - intros k big Hk [(k0 & Hk0 & ->) Hub].
    destruct (abs (mget A k i) >? abs (mget A k0 i))%D eqn:E.
    + split.
      * exists k. split; [lia|reflexivity].
      * intros k' Hk'. destruct (decide (k' = k)) as [->|Hne].
        -- apply leb_abs_refl, Hnum. lia.
        -- apply leb_abs_trans with (y := mget A k0 i).
           ++ apply Hub. lia.
           ++ apply gtb_leb, E.
    + split.
      * exists k0. split; [lia|reflexivity].
      * intros k' Hk'. destruct (decide (k' = k)) as [->|Hne].
        -- apply not_gtb_leb; [apply Hnum; lia|apply Hnum; lia|exact E].
        -- apply Hub. lia.
Qed.

(** The running maximum is zero exactly when every magnitude is zero. *)
Lemma running_max_zero A i n :
  i < n -> column_numeric A i n ->
  (running_max A i (i + 1) n (abs (mget A i i)) =? zero)%D = true
  <-> (forall k, i <= k < n -> (abs (mget A k i) =? zero)%D = true).
Proof.
  intros Hi Hnum. split.
  - unfold running_max.
    apply (for_loop_ind (fun hi big =>
      (exists y, big = abs y) /\
      ((big =? zero)%D = true ->
       forall k, i <= k < hi -> (abs (mget A k i) =? zero)%D = true))); [lia| |].
    + split; [eexists; reflexivity|].
      intros Hz k Hk. assert (k = i) by lia. subst k. exact Hz.
    + intros k big Hk [[y ->] IH].
      destruct (abs (mget A k i) >? abs y)%D eqn:E.
      * split; [eexists; reflexivity|].
        intros Hz. rewrite (gtb_abs_nonzero _ _ E) in Hz. discriminate.
      * split; [eexists; reflexivity|].
        intros Hz k' Hk'. destruct (decide (k' = k)) as [->|Hne].
        -- apply (not_gtb_zero _ (abs y)); [apply Hnum; lia|exact E|exact Hz].
        -- apply IH; [exact Hz|lia].
  - intros Hall. unfold running_max.
    apply (for_loop_ind (fun hi big => (big =? zero)%D = true)); [lia| |].
    + apply Hall. lia.
    + intros k big Hk Hz.
      rewrite (gtb_zeros _ _ (Hall k ltac:(lia)) Hz). exact Hz.
Qed.

Lemma maximum_zero_iff A i n :
  i < n -> column_numeric A i n ->
  (exists m, column_maximum A i n m /\ (m =? zero)%D = true)
  <-> (forall k, i <= k < n -> (abs (mget A k i) =? zero)%D = true).
Proof.
  intros Hi Hnum. split.
  - intros (m & [_ Hub] & Hz) k Hk. apply (leb_abs_zero _ m); [apply Hub, Hk|exact Hz].
  - intros Hall. exists (abs (mget A i i)). split; [split|].
    + exists i. split; [lia|reflexivity].
    + intros k Hk. apply leb_zeros; apply Hall; lia.
    + apply Hall. lia.
Qed.

(** ** Elimination of one column *)

Lemma eliminate_row_spec n A B i k :
  square n A -> length B = n -> i < n -> k < n -> k <> i ->
  let A' := fst (eliminate_row i k (A, B)) in
  let B' := snd (eliminate_row i k (A, B)) in
  square n A' /\ length B' = n /\
  row_eliminated A A' i k n /\
  (forall k' j, k' <> k -> mget A' k' j = mget A k' j) /\
  vget B' k = (vget B k + factor A i k * vget B i)%D /\
  (forall k', k' <> k -> vget B' k' = vget B k').
Proof.
  intros HA HB Hi Hk Hne. unfold eliminate_row. cbn [fst snd].
  fold (factor A i k).
  destruct HA as [Hlen Hrows]. rewrite Hlen.
  set (P := fun hi A0 =>
      square n A0 /\
      (forall j, i <= j < hi ->
         mget A0 k j = if j =? i then zero
                       else (mget A k j + factor A i k * mget A i j)%D) /\
      (forall k' j, k' <> k \/ j < i \/ hi <= j -> mget A0 k' j = mget A k' j)).
  set (body := fun j A0 => if i =? j then mset A0 k j zero
                 else mset A0 k j (mget A0 k j + factor A i k * mget A0 i j)%D).
  assert (Hloop : P n (for_loop i n body A)); [apply for_loop_ind; [lia| |]|].
  { split; [split; assumption|]. split; [intros j Hj; lia|reflexivity]. }
  { intros j A0 Hj (Hsq & Hdone & Hrest).
    assert (Hkj : mget A0 k j = mget A k j) by (apply Hrest; lia).
    assert (Hij : mget A0 i j = mget A i j) by (apply Hrest; left; congruence).
    unfold body.
    split; [destruct (i =? j); apply square_mset, Hsq|]. split.
    - intros j' Hj'. destruct (decide (j' = j)) as [->|Hd].
      + destruct (Nat.eqb_spec i j) as [->|Hij'].
        * rewrite Nat.eqb_refl. apply (mget_mset_square n); [exact Hsq|lia|lia].
        * destruct (Nat.eqb_spec j i) as [->|_]; [congruence|].
          rewrite (mget_mset_square n) by (try exact Hsq; lia).
          rewrite Hkj, Hij. reflexivity.
      + destruct (i =? j); rewrite mget_mset_ne by (right; congruence);
          apply Hdone; lia.
    - intros k' j' Hc.
      assert (Hd : k <> k' \/ j <> j')
        by (destruct Hc as [?|[?|?]]; [left; congruence|right; lia|right; lia]).
      assert (Hc' : k' <> k \/ j' < i \/ j <= j')
        by (destruct Hc as [?|[?|?]]; [left; assumption|right; left; assumption|right; right; lia]).
      destruct (i =? j); rewrite mget_mset_ne by exact Hd; apply Hrest, Hc'. }
  destruct Hloop as (Hsq & Hrow & Hoth).
  split; [exact Hsq|]. split; [rewrite length_vset; exact HB|].
  split; [|split; [|split]].
  - split; [|split].
    + rewrite Hrow by lia. rewrite Nat.eqb_refl. reflexivity.
    + intros j Hj. rewrite Hrow by lia.
      destruct (Nat.eqb_spec j i); [lia|reflexivity].
    + intros j Hj. apply Hoth. right. left. exact Hj.
  - intros k' j Hk'. apply Hoth. left. exact Hk'.
  - apply vget_vset_eq. lia.
  - intros k' Hk'. apply vget_vset_ne. congruence.
Qed.

Lemma factor_ext A A' i k :
  mget A' k i = mget A k i -> mget A' i i = mget A i i -> factor A' i k = factor A i k.
Proof. intros H1 H2. unfold factor. rewrite H1, H2. reflexivity. Qed.

(** The sweep of column [i]: every row below row [i] is eliminated with its
    own factor, computed from the matrix as it was before the sweep; the rows
    up to [i] and the entries of [B] up to [i] are left as they were. *)
Lemma sweep_spec n A B i :
  square n A -> length B = n -> i < n ->
  let A' := fst (sweep i (A, B)) in
  let B' := snd (sweep i (A, B)) in
  square n A' /\ length B' = n /\
  (forall k, i < k < n ->
     row_eliminated A A' i k n /\
     vget B' k = (vget B k + factor A i k * vget B i)%D) /\
  (forall k j, k <= i -> mget A' k j = mget A k j) /\
  (forall k, k <= i -> vget B' k = vget B k).
Proof.
  intros HA HB Hi. unfold sweep. cbn [fst snd].
  replace (length A) with n by (destruct HA; congruence).
  set (Q := fun hi (s : matrix_t * vector_t) =>
      square n (fst s) /\ length (snd s) = n /\
      (forall k, i < k < hi ->
         row_eliminated A (fst s) i k n /\
         vget (snd s) k = (vget B k + factor A i k * vget B i)%D) /\
      (forall k j, k <= i \/ hi <= k -> mget (fst s) k j = mget A k j) /\
      (forall k, k <= i \/ hi <= k -> vget (snd s) k = vget B k)).
  assert (Hloop : Q n (for_loop (i + 1) n (eliminate_row i) (A, B))).
  { apply for_loop_ind; [lia| |].
    - unfold Q. cbn [fst snd]. repeat split; try assumption; try reflexivity;
        try (destruct HA; assumption); intros; lia.
    - intros k [Ak Bk] Hk (Hsq & Hlen & Hdone & HrestA & HrestB). cbn [fst snd] in *.
      destruct (eliminate_row_spec n Ak Bk i k Hsq Hlen Hi ltac:(lia) ltac:(lia))
        as (Hsq' & Hlen' & (Hz & Hright & Hleft) & Hother & HBk & HBother).
      assert (Hf : factor Ak i k = factor A i k)
        by (apply factor_ext; apply HrestA; lia).
      unfold Q. split; [exact Hsq'|]. split; [exact Hlen'|]. split; [|split].
      + intros k' Hk'. destruct (decide (k' = k)) as [->|Hne].
        * split; [split; [exact Hz|split]|].
          -- intros j Hj. rewrite Hright by exact Hj. rewrite Hf.
             rewrite !HrestA by lia. reflexivity.
          -- intros j Hj. rewrite Hleft by exact Hj. apply HrestA. lia.
          -- rewrite HBk, Hf. rewrite !HrestB by lia. reflexivity.
        * destruct (Hdone k' ltac:(lia)) as ((Hz' & Hr' & Hl') & HB').
          split; [split; [|split]|].
          -- rewrite Hother by exact Hne. exact Hz'.
          -- intros j Hj. rewrite Hother by exact Hne. apply Hr', Hj.
          -- intros j Hj. rewrite Hother by exact Hne. apply Hl', Hj.
          -- rewrite HBother by exact Hne. exact HB'.
      + intros k' j Hk'. rewrite Hother by lia. apply HrestA. lia.
      + intros k' Hk'. rewrite HBother by lia. apply HrestB. lia. }
  destruct Hloop as (H1 & H2 & H3 & H4 & H5).
  repeat split; try assumption; try (destruct H1; assumption).
  - apply H3. assumption.
  - apply H3. assumption.
  - apply H3. assumption.
  - apply H3. assumption.
  - intros k j Hk. apply H4. lia.
  - intros k Hk. apply H5. lia.
Qed.

(** ** Sequencing *)

Lemma bind_returned {T U : Type} (m : proc T) (k : T -> proc U) out v :
  bind m k = (out, Returned v) ->
  exists o1 x o2, m = (o1, Returned x) /\ k x = (o2, Returned v) /\ out = o1 ++ o2.
Proof.
  destruct m as [o1 [x|st|]]; simpl; [|discriminate|discriminate].
  destruct (k x) as [o2 r] eqn:E. intros H. injection H as <- ->.
  exists o1, x, o2. split; [reflexivity|]. split; [exact E|reflexivity].
Qed.

Lemma bind_exited {T U : Type} (m : proc T) (k : T -> proc U) out st :
  m = (out, Exited st) -> bind m k = (out, Exited st).
Proof. intros ->. reflexivity. Qed.

Lemma bind_ret_l {T U : Type} (x : T) (k : T -> proc U) : bind (ret x) k = k x.
Proof. unfold bind, ret. destruct (k x). reflexivity. Qed.

Lemma bind_ret_r {T : Type} (m : proc T) : bind m ret = m.
Proof.
  destruct m as [o [x|st|]]; simpl; [rewrite app_nil_r| |]; reflexivity.
Qed.

Lemma gauss_columns_app rs fs l1 l2 s :
  gauss_columns rs fs (l1 ++ l2) s
  = bind (gauss_columns rs fs l1 s) (gauss_columns rs fs l2).
Proof.
  revert s. induction l1 as [|i l1 IH]; intros s; simpl.
  - destruct (gauss_columns rs fs l2 s) as [o r]. reflexivity.
  - destruct (gauss_column rs fs i s) as [o [s'|st|]]; simpl;
      [|reflexivity|reflexivity].
    rewrite IH. destruct (gauss_columns rs fs l1 s') as [o1 [s1|st1|]]; simpl.
    + destruct (gauss_columns rs fs l2 s1) as [o2 r2]. rewrite app_assoc. reflexivity.
    + reflexivity.
    + reflexivity.
Qed.

(** A column that does not stop the run prints nothing and yields the sweep. *)
Lemma gauss_column_returned rs fs i A B out s :
  gauss_column rs fs i (A, B) = (out, Returned s) ->
  out = [] /\ s = sweep i (A, B).
Proof.
  rewrite gauss_column_spec. destruct (_ =? zero)%D; [discriminate|].
  intros H. injection H as <- <-. split; reflexivity.
Qed.

(** A column either stops the run with the singularity message, or returns. *)
Lemma gauss_column_cases rs fs i s :
  gauss_column rs fs i s = ([OutSingular], Exited (-1)%Z) \/
  exists s', gauss_column rs fs i s = ([], Returned s').
Proof.
  destruct s as [A B]. rewrite gauss_column_spec.
  destruct (_ =? zero)%D; [left; reflexivity|right; eexists; reflexivity].
Qed.

(** ** The triangular shape *)

Lemma gauss_columns_invariant rs fs n A B c out A' B' :
  square n A -> length B = n -> c <= n ->
  gauss_columns rs fs (seq 0 c) (A, B) = (out, Returned (A', B')) ->
  out = [] /\ square n A' /\ length B' = n /\ eliminated_upto c n A'.
Proof.
  intros HA HB. revert out A' B'. induction c as [|c IH]; intros out A' B' Hc H.
  - simpl in H. injection H as <- <- <-.
    repeat split; try assumption; try (destruct HA; assumption).
    intros i k Hi. lia.
  - rewrite seq_S, gauss_columns_app in H. simpl in H.
    apply bind_returned in H. destruct H as (o1 & [Ac Bc] & o2 & H1 & H2 & ->).
    destruct (IH o1 Ac Bc ltac:(lia) H1) as (-> & Hsq & Hlen & Hup).
    simpl in H2. apply bind_returned in H2.
    destruct H2 as (o3 & s & o4 & H3 & H4 & ->).
    injection H4 as <- ->.
    apply gauss_column_returned in H3. destruct H3 as [-> Hs].
    destruct (sweep_spec n Ac Bc c Hsq Hlen ltac:(lia))
      as (Hsq' & Hlen' & Hrows & HkeepA & HkeepB).
    rewrite <- Hs in *. cbn [fst snd] in *.
    split; [reflexivity|]. split; [exact Hsq'|]. split; [exact Hlen'|].
    intros i k Hi Hk.
    destruct (decide (i = c)) as [->|Hne].
    + destruct (Hrows k Hk) as ((Hz & _) & _). exact Hz.
    + destruct (decide (k <= c)) as [Hkc|Hkc].
      * rewrite HkeepA by exact Hkc. apply Hup; lia.
      * destruct (Hrows k ltac:(lia)) as ((_ & _ & Hl) & _).
        rewrite Hl by lia. apply Hup; lia.
Qed.

Lemma gauss_returned rs fs A B X out A' B' X' :
  gauss rs fs A B X = (out, Returned (A', B', X')) ->
  exists B1, gauss_columns rs fs (seq 0 (length A)) (A, B) = (out, Returned (A', B1)) /\
             back_substitution A' B1 X = (B', X').
Proof.
  unfold gauss, eliminate. intros H. apply bind_returned in H.
  destruct H as (o1 & [A1 B1] & o2 & H1 & H2 & ->).
  destruct (back_substitution A1 B1 X) as [B2 X2] eqn:E.
  injection H2 as <- <- <- <-. exists B1. rewrite app_nil_r. split; [exact H1|exact E].
Qed.

(** The column loop prints nothing unless it stops the run. *)
Lemma gauss_columns_silent rs fs cols s out s' :
  gauss_columns rs fs cols s = (out, Returned s') -> out = [].
Proof.
  revert s out. induction cols as [|i cols IH]; intros s out H; simpl in H.
  - injection H as <- _. reflexivity.
  - apply bind_returned in H. destruct H as (o1 & s1 & o2 & H1 & H2 & ->).
    destruct s as [A B]. apply gauss_column_returned in H1. destruct H1 as [-> _].
    simpl. exact (IH _ _ H2).
Qed.

(** A run of the column loop that returns has returned after every shorter
    prefix of the columns as well. *)
Lemma gauss_columns_prefix rs fs n c s out s' :
  c <= n ->
  gauss_columns rs fs (seq 0 n) s = (out, Returned s') ->
  exists sc, gauss_columns rs fs (seq 0 c) s = ([], Returned sc).
Proof.
  intros Hc H. replace n with (c + (n - c)) in H by lia.
  rewrite seq_app, gauss_columns_app in H.
  apply bind_returned in H. destruct H as (o1 & sc & o2 & H1 & _ & _).
  exists sc. rewrite H1. rewrite (gauss_columns_silent _ _ _ _ _ _ H1). reflexivity.
Qed.

(** C5.  When [gauss] returns, the matrix it leaves in [A] is upper
    triangular: every entry below the diagonal is exactly [0.0].  The same
    holds throughout the elimination: once the columns before [c] are
    processed, each of them is zero below the diagonal. *)
Theorem gauss_upper_triangular rs fs n A B X out A' B' X' :
  square n A -> length B = n ->
  gauss rs fs A B X = (out, Returned (A', B', X')) ->
  (forall i k, i < k < n -> mget A' k i = zero) /\
  (forall c, c <= n ->
     exists Ac Bc, gauss_columns rs fs (seq 0 c) (A, B) = ([], Returned (Ac, Bc)) /\
                   forall i k, i < c -> i < k < n -> mget Ac k i = zero).
Proof.
  intros HA HB H. apply gauss_returned in H. destruct H as (B1 & H1 & _).
  replace (length A) with n in H1 by (destruct HA; congruence).
  split.
  - destruct (gauss_columns_invariant rs fs n A B n out A' B1 HA HB ltac:(lia) H1)
      as (_ & _ & _ & Hup).
    intros i k Hk. apply Hup; lia.
  - intros c Hc.
    destruct (gauss_columns_prefix rs fs n c (A, B) out (A', B1) Hc H1) as ([Ac Bc] & H2).
    exists Ac, Bc. split; [exact H2|].
    destruct (gauss_columns_invariant rs fs n A B c [] Ac Bc HA HB Hc H2)
      as (_ & _ & _ & Hup).
    exact Hup.
Qed.

Lemma gauss_upper_triangular_witness :
  exists out A' B' X',
    gauss split_all split_all textbook_A textbook_B (V_of [0; 0; 0]%Z)
      = (out, Returned (A', B', X')) /\
    X' = V_of [2; 3; -1]%Z /\
    forall i k, i < k < 3 -> mget A' k i = zero.
Proof.
  eexists _, _, _, _. split; [vm_compute; reflexivity|]. split; [reflexivity|].
  refine (proj1 (gauss_upper_triangular split_all split_all 3
    textbook_A textbook_B (V_of [0; 0; 0]%Z) _ _ _ _ _ _ _)).
  - split; [reflexivity|]. repeat constructor.
  - reflexivity.
  - vm_compute. reflexivity.
Defined.

(** C6.  In column [i], with [A] and [B] as they stand after the row
    exchange, every row [k] below row [i] gets the factor
    [c = -A[k][i] / A[i][i]]; its entry in column [i] becomes exactly [0.0],
    its entries right of column [i] become [A[k][j] + c * A[i][j]], and
    [B[k]] becomes [B[k] + c * B[i]]. *)
Theorem column_elimination rs fs n A B i out A' B' :
  square n A -> length B = n -> i < n ->
  gauss_column rs fs i (A, B) = (out, Returned (A', B')) ->
  forall k, i < k < n ->
    let row := snd (pivot_search rs A i) in
    let As := swap_rows A i row in
    let Bs := swap_elems B i row in
    let c := (- mget As k i / mget As i i)%D in
    mget A' k i = zero /\
    (forall j, i < j < n -> mget A' k j = (mget As k j + c * mget As i j)%D) /\
    vget B' k = (vget Bs k + c * vget Bs i)%D.
Proof.
  intros HA HB Hi H k Hk. rewrite pivot_search_spec. cbn [snd].
  rewrite swap_rows_same, swap_elems_same. cbv zeta.
  apply gauss_column_returned in H. destruct H as [_ Hs].
  destruct (sweep_spec n A B i HA HB Hi) as (_ & _ & Hrows & _).
  rewrite <- Hs in Hrows. cbn [fst snd] in Hrows.
  destruct (Hrows k Hk) as ((Hz & Hr & _) & Hb).
  split; [exact Hz|]. split; [exact Hr|exact Hb].
Qed.

Lemma column_elimination_witness :
  exists A' B',
    gauss_column split_all split_all 0 (textbook_A, textbook_B) = ([], Returned (A', B')) /\
    A' = [[of_Z 2; of_Z 1; of_Z (-1)];
          [zero; decimal 1 2; decimal 1 2];
          [zero; of_Z 2; of_Z 1]] /\
    mget A' 1 0 = zero /\
    (forall j, 0 < j < 3 ->
       mget A' 1 j = (mget textbook_A 1 j
                      + (- mget textbook_A 1 0 / mget textbook_A 0 0) * mget textbook_A 0 j)%D) /\
    vget B' 1 = (vget textbook_B 1
                 + (- mget textbook_A 1 0 / mget textbook_A 0 0) * vget textbook_B 0)%D.
Proof.
  eexists _, _. split; [vm_compute; reflexivity|]. split; [vm_compute; reflexivity|].
  refine (column_elimination split_all split_all 3 textbook_A textbook_B 0 [] _ _ _ _ _ _ 1 _).
  - split; [reflexivity|]. repeat constructor.
  - reflexivity.
  - lia.
  - vm_compute. reflexivity.
  - lia.
Defined.

(** ** Singularity *)

Lemma gauss_column_singular_iff rs fs i A B :
  gauss_column rs fs i (A, B) = ([OutSingular], Exited (-1)%Z)
  <-> (running_max A i (i + 1) (length A) (abs (mget A i i)) =? zero)%D = true.
Proof.
  rewrite gauss_column_spec. destruct (_ =? zero)%D; split; intros H;
    try reflexivity; discriminate.
Qed.

(** Once a column has stopped the run, so has [gauss]. *)
Lemma gauss_stops rs fs A B X i :
  i < length A ->
  gauss_columns rs fs (seq 0 (S i)) (A, B) = ([OutSingular], Exited (-1)%Z) ->
  gauss rs fs A B X = ([OutSingular], Exited (-1)%Z).
Proof.
  intros Hi H. unfold gauss, eliminate.
  replace (length A) with (S i + (length A - S i)) by lia.
  rewrite seq_app, gauss_columns_app.
  rewrite (bind_exited _ _ _ _ H). reflexivity.
Qed.

(** X21.  Let [A], [B] be the system as it stands when column [i] is reached,
    with numbers (no NaN) in that column from the diagonal down.  Then the
    run is stopped at column [i], with the message and [exit(-1)], if and
    only if the maximum of [|A[k][i]|] over the rows [i <= k < n] is [0.0];
    otherwise column [i] prints nothing and the loop goes on.  In
    particular the matrix [[0, 1], [0, 1]] is reported at column [0]. *)
Theorem singular_iff_zero_column rs fs n A0 B0 X i A B :
  length A0 = n -> i < n ->
  gauss_columns rs fs (seq 0 i) (A0, B0) = ([], Returned (A, B)) ->
  length A = n ->
  column_numeric A i n ->
  (gauss_columns rs fs (seq 0 (S i)) (A0, B0) = ([OutSingular], Exited (-1)%Z)
   <-> exists m, column_maximum A i n m /\ (m =? zero)%D = true) /\
  (gauss_columns rs fs (seq 0 (S i)) (A0, B0) = ([OutSingular], Exited (-1)%Z)
   -> gauss rs fs A0 B0 X = ([OutSingular], Exited (-1)%Z)) /\
  ((forall m, column_maximum A i n m -> (m =? zero)%D = false)
   -> exists s, gauss_columns rs fs (seq 0 (S i)) (A0, B0) = ([], Returned s)) /\
  (forall B1, gauss_column rs fs 0 (M_of [[0; 1]; [0; 1]]%Z, B1)
              = ([OutSingular], Exited (-1)%Z)).
Proof.
  intros Hn Hi Hpre HA Hnum.
  assert (Hstep : gauss_columns rs fs (seq 0 (S i)) (A0, B0)
                  = gauss_column rs fs i (A, B)).
  { rewrite seq_S, gauss_columns_app, Hpre.
    change ([], Returned (A, B)) with (ret (A, B)). rewrite bind_ret_l.
    cbn [gauss_columns Nat.add]. apply bind_ret_r. }
  rewrite Hstep. split; [|split; [|split]].
  - rewrite gauss_column_singular_iff, HA.
    rewrite (running_max_zero A i n Hi Hnum).
    symmetry. apply maximum_zero_iff; assumption.
  - intros H. apply (gauss_stops rs fs A0 B0 X i); [lia|]. rewrite Hstep. exact H.
  - intros Hpos.
    destruct (gauss_column_cases rs fs i (A, B)) as [Hs|Hr]; [|exact Hr].
    apply gauss_column_singular_iff in Hs. rewrite HA in Hs.
    pose proof (running_max_is_maximum A i n Hi Hnum) as Hmax.
    rewrite (Hpos _ Hmax) in Hs. discriminate.
  - intros B1. apply gauss_column_singular_iff. vm_compute. reflexivity.
Qed.

Lemma singular_iff_zero_column_witness :
  let A0 := M_of [[1; 1]; [1; 1]]%Z in
  let B0 := V_of [1; 2]%Z in
  let A := M_of [[1; 1]; [0; 0]]%Z in
  let B := V_of [1; 1]%Z in
  gauss_columns split_all split_all (seq 0 1) (A0, B0) = ([], Returned (A, B)) /\
  gauss split_all split_all A0 B0 (V_of [0; 0]%Z) = ([OutSingular], Exited (-1)%Z) /\
  exists m, column_maximum A 1 2 m /\ (m =? zero)%D = true.
Proof.
  intros A0 B0 A B.
  assert (Hpre : gauss_columns split_all split_all (seq 0 1) (A0, B0)
                 = ([], Returned (A, B))) by (vm_compute; reflexivity).
  assert (Hnum : column_numeric A 1 2).
  { intros k Hk. destruct k as [|[|k]]; [lia|reflexivity|lia]. }
  destruct (singular_iff_zero_column split_all split_all 2 A0 B0 (V_of [0; 0]%Z) 1 A B
              eq_refl ltac:(lia) Hpre eq_refl Hnum) as (Hiff & Hstop & _).
  split; [exact Hpre|]. split.
  - apply Hstop. vm_compute. reflexivity.
  - apply Hiff. vm_compute. reflexivity.
Defined.


(** ** The pivot row *)

(** C1.  The row exchange of [gauss] never moves a row: the variable [row]
    still holds [i] after the pivot search, for every matrix and every
    schedule.  For [[1, 2], [3, 4]] the entry of largest magnitude in
    column [0] is in row [1], and that row is not brought to the diagonal. *)
Theorem pivot_row_stays rs fs :
  (forall A i, snd (pivot_search rs A i) = i) /\
  (let A := M_of [[1; 2]; [3; 4]]%Z in
   let B := V_of [5; 6]%Z in
   column_maximum A 0 2 (abs (mget A 1 0)) /\
   (abs (mget A 1 0) >? abs (mget A 0 0))%D = true /\
   fst (pivot_search rs A 0) = abs (mget A 1 0) /\
   swap_rows A 0 (snd (pivot_search rs A 0)) = A /\
   gauss_column rs fs 0 (A, B)
   = ([], Returned ([[of_Z 1; of_Z 2]; [zero; of_Z (-2)]], [of_Z 5; of_Z (-9)]))).
Proof.
  split.
  - intros A i. rewrite pivot_search_spec. reflexivity.
  - cbv zeta. split; [|split; [|split; [|split]]].
    + split.
      * exists 1. split; [lia|reflexivity].
      * intros k Hk. destruct k as [|[|k]]; [reflexivity|reflexivity|lia].
    + reflexivity.
    + rewrite pivot_search_spec. vm_compute. reflexivity.
    + rewrite pivot_search_spec. cbn [snd]. apply swap_rows_same.
    + rewrite gauss_column_spec. vm_compute. reflexivity.
Qed.

(** ** Back substitution *)

Lemma for_down_app {St : Type} hi mid lo (body : nat -> St -> St) s :
  lo <= mid -> mid <= hi ->
  for_down hi lo body s = for_down mid lo body (for_down hi mid body s).
Proof.
  intros H1 H2. unfold for_down.
  replace (hi - lo) with ((mid - lo) + (hi - mid)) by lia.
  rewrite seq_app, rev_app_distr, fold_left_app.
  replace (lo + (mid - lo)) with mid by lia. reflexivity.
Qed.

(** One iteration of the back substitution: [X] changes at index [i] only,
    [B] changes below index [i] only. *)
Lemma substitute_spec n A B X i :
  length B = n -> length X = n -> i < n ->
  let B' := fst (substitute A i (B, X)) in
  let X' := snd (substitute A i (B, X)) in
  length B' = n /\ length X' = n /\
  vget X' i = (vget B i / mget A i i)%D /\
  (forall j, j <> i -> vget X' j = vget X j) /\
  (forall k, k < i -> vget B' k = (vget B k - mget A k i * vget X' i)%D) /\
  (forall k, i <= k -> vget B' k = vget B k).
Proof.
  intros HB HX Hi. unfold substitute. cbn [fst snd].
  set (X' := vset X i (vget B i / mget A i i)%D).
  set (body := fun k B0 => vset B0 k (vget B0 k - mget A k i * vget X' i)%D).
  assert (Hloop :
    length (for_down i 0 body B) = n /\
    (forall k, 0 <= k < i ->
       vget (for_down i 0 body B) k = (vget B k - mget A k i * vget X' i)%D) /\
    (forall k, k < 0 \/ i <= k -> vget (for_down i 0 body B) k = vget B k)).
  { apply (for_down_ind (fun lo B0 =>
      length B0 = n /\
      (forall k, lo <= k < i -> vget B0 k = (vget B k - mget A k i * vget X' i)%D) /\
      (forall k, k < lo \/ i <= k -> vget B0 k = vget B k))); [lia| |].
    - split; [exact HB|]. split; [intros k Hk; lia|reflexivity].
    - intros k B0 Hk (Hlen & Hdone & Hrest). unfold body.
      split; [rewrite length_vset; exact Hlen|]. split.
      + intros k' Hk'. destruct (decide (k' = k)) as [->|Hne].
        * rewrite vget_vset_eq by lia. rewrite Hrest by lia. reflexivity.
        * rewrite vget_vset_ne by congruence. apply Hdone. lia.
      + intros k' Hk'. rewrite vget_vset_ne by lia. apply Hrest. lia. }
  destruct Hloop as (Hlen & Hdone & Hrest).
  split; [exact Hlen|]. split; [unfold X'; rewrite length_vset; exact HX|].
  split; [unfold X'; apply vget_vset_eq; lia|].
  split; [intros j Hj; unfold X'; apply vget_vset_ne; congruence|].
  split.
  - intros k Hk. apply Hdone. lia.
  - intros k Hk. apply Hrest. lia.
Qed.

(** The iterations [n - 1], ..., [lo] keep the sizes, and leave [X] below
    [lo] as it was. *)
Lemma substitute_iterations n A B X lo :
  length B = n -> length X = n -> lo <= n ->
  let s := for_down n lo (substitute A) (B, X) in
  length (fst s) = n /\ length (snd s) = n /\
  (forall j, j < lo -> vget (snd s) j = vget X j).
Proof.
  intros HB HX Hlo. cbv zeta.
  apply (for_down_ind (fun lo s =>
    length (fst s) = n /\ length (snd s) = n /\
    (forall j, j < lo -> vget (snd s) j = vget X j))); [exact Hlo| |].
  - cbn [fst snd]. split; [exact HB|]. split; [exact HX|reflexivity].
  - intros k [Bk Xk] Hk (H1 & H2 & H3). cbn [fst snd] in *.
    destruct (substitute_spec n A Bk Xk k H1 H2 ltac:(lia)) as (H4 & H5 & _ & H6 & _).
    split; [exact H4|]. split; [exact H5|].
    intros j Hj. rewrite H6 by lia. apply H3. lia.
Qed.

(** The iterations [i - 1], ..., [0] do not write [X[j]] for [j >= i]. *)
Lemma substitute_below n A B X i :
  length B = n -> length X = n -> i <= n ->
  forall j, i <= j -> vget (snd (for_down i 0 (substitute A) (B, X))) j = vget X j.
Proof.
  intros HB HX Hi j Hj.
  assert (H : let s := for_down i 0 (substitute A) (B, X) in
              length (fst s) = n /\ length (snd s) = n /\ vget (snd s) j = vget X j).
  { cbv zeta. apply (for_down_ind (fun lo s =>
      length (fst s) = n /\ length (snd s) = n /\ vget (snd s) j = vget X j)); [lia| |].
    - cbn [fst snd]. split; [exact HB|]. split; [exact HX|reflexivity].
    - intros k [Bk Xk] Hk (H1 & H2 & H3). cbn [fst snd] in *.
      destruct (substitute_spec n A Bk Xk k H1 H2 ltac:(lia)) as (H4 & H5 & _ & H6 & _).
      split; [exact H4|]. split; [exact H5|].
      rewrite H6 by lia. exact H3. }
  apply H.
Qed.

(** C7.  The back substitution runs [i = n - 1] down to [0].  With [before]
    the contents of [B], [X] once the iterations [n - 1], ..., [i + 1] are
    done and [after] those once iteration [i] is done as well: iteration [i]
    is applied to [before]; it stores [B[i] / A[i][i]] in [X[i]] and writes
    no other entry of [X]; it subtracts [A[k][i] * X[i]] from [B[k]] for every
    [k < i] and leaves the rest of [B]; and [X[i]] is never written again. *)
Theorem back_substitution_order n A B X i :
  length A = n -> length B = n -> length X = n -> i < n ->
  let before := for_down n (S i) (substitute A) (B, X) in
  let after := for_down n i (substitute A) (B, X) in
  after = substitute A i before /\
  vget (snd after) i = (vget (fst before) i / mget A i i)%D /\
  (forall j, j <> i -> vget (snd after) j = vget (snd before) j) /\
  (forall k, k < i ->
     vget (fst after) k = (vget (fst before) k - mget A k i * vget (snd after) i)%D) /\
  (forall k, i <= k -> vget (fst after) k = vget (fst before) k) /\
  back_substitution A B X = for_down i 0 (substitute A) after /\
  vget (snd (back_substitution A B X)) i = vget (snd after) i.
Proof.
  intros HA HB HX Hi. cbv zeta.
  rewrite (for_down_last n i) by lia.
  destruct (substitute_iterations n A B X (S i) HB HX ltac:(lia)) as (H1 & H2 & _).
  destruct (for_down n (S i) (substitute A) (B, X)) as [Bi Xi] eqn:E.
  cbn [fst snd] in *.
  destruct (substitute_spec n A Bi Xi i H1 H2 Hi) as (H3 & H4 & H5 & H6 & H7 & H8).
  split; [reflexivity|]. split; [exact H5|]. split; [exact H6|].
  split; [exact H7|]. split; [exact H8|].
  assert (Hsplit : back_substitution A B X
                   = for_down i 0 (substitute A) (substitute A i (Bi, Xi))).
  { unfold back_substitution. rewrite HA.
    rewrite (for_down_app n i 0) by lia.
    rewrite (for_down_last n i) by lia. rewrite E. reflexivity. }
  split; [exact Hsplit|].
  rewrite Hsplit.
  destruct (substitute A i (Bi, Xi)) as [B' X'] eqn:E'. cbn [fst snd] in *.
  apply (substitute_below n A B' X' i H3 H4); lia.
Qed.

Lemma back_substitution_order_witness :
  let A := M_of [[2; 1]; [0; 4]]%Z in
  let B := V_of [4; 8]%Z in
  let X := V_of [0; 0]%Z in
  for_down 2 2 (substitute A) (B, X) = (B, X) /\
  for_down 2 1 (substitute A) (B, X) = (V_of [2; 8]%Z, V_of [0; 2]%Z) /\
  back_substitution A B X = (V_of [2; 8]%Z, V_of [1; 2]%Z) /\
  vget (snd (back_substitution A B X)) 1
  = vget (snd (for_down 2 1 (substitute A) (B, X))) 1.
Proof.
  intros A B X.
  split; [reflexivity|]. split; [vm_compute; reflexivity|].
  split; [vm_compute; reflexivity|].
  apply (back_substitution_order 2 A B X 1 eq_refl eq_refl eq_refl ltac:(lia)).
Defined.

(** ** The initializer *)

Lemma vector_ext n (V W : vector_t) :
  length V = n -> length W = n ->
  (forall j, j < n -> vget V j = vget W j) -> V = W.
Proof.
  intros HV HW H. apply list_eq. intros j.
  destruct (Nat.lt_ge_cases j n) as [Hj|Hj].
  - specialize (H j Hj). unfold vget in H.
    destruct (lookup_lt_is_Some_2 V j ltac:(lia)) as [x Hx].
    destruct (lookup_lt_is_Some_2 W j ltac:(lia)) as [y Hy].
    rewrite Hx, Hy in *. congruence.
  - rewrite !lookup_ge_None_2 by lia. reflexivity.
Qed.

Lemma square_ext n (A A' : matrix_t) :
  square n A -> square n A' ->
  (forall i j, i < n -> j < n -> mget A i j = mget A' i j) -> A = A'.
Proof.
  intros HA HA' H. apply list_eq. intros i.
  destruct (Nat.lt_ge_cases i n) as [Hi|Hi].
  - destruct (square_lookup n A i HA Hi) as (r & Hr & Hlr).
    destruct (square_lookup n A' i HA' Hi) as (r' & Hr' & Hlr').
    rewrite Hr, Hr'. f_equal. apply (vector_ext n); [assumption|assumption|].
    intros j Hj. specialize (H i j Hi Hj). unfold mget in H.
    rewrite Hr, Hr' in H. exact H.
  - destruct HA as [HA _], HA' as [HA' _].
    rewrite !lookup_ge_None_2 by lia. reflexivity.
Qed.

Section InitializerProperties.

Variable engine : Type.
Variable mt19937 : Z -> engine.
Variable uniform_real : double -> double -> engine -> double * engine.

Let fill := initializeFromSeed engine mt19937 uniform_real.

(** Two fills of row [i] from the same engine state agree on that row and
    leave the engine in the same state. *)
Lemma fill_row_lockstep a b n i (A1 A2 : matrix_t) (g : engine) :
  i < n -> square n A1 -> square n A2 ->
  (forall i' j, i' < i -> j < n -> mget A1 i' j = mget A2 i' j) ->
  let body := fun j => draw_into engine uniform_real a b (fun A x => mset A i j x) in
  let s1 := for_loop 0 n body (A1, g) in
  let s2 := for_loop 0 n body (A2, g) in
  snd s1 = snd s2 /\ square n (fst s1) /\ square n (fst s2) /\
  (forall i' j, i' < S i -> j < n -> mget (fst s1) i' j = mget (fst s2) i' j).
Proof.
  intros Hi H1 H2 Hprev body s1 s2.
  assert (H : snd s1 = snd s2 /\ square n (fst s1) /\ square n (fst s2) /\
    (forall i' j, (i' < i /\ j < n) \/ (i' = i /\ j < n) ->
       mget (fst s1) i' j = mget (fst s2) i' j)).
  { unfold s1, s2.
    apply (for_loop_ind2 (fun hi (t1 t2 : matrix_t * engine) =>
      snd t1 = snd t2 /\ square n (fst t1) /\ square n (fst t2) /\
      (forall i' j, (i' < i /\ j < n) \/ (i' = i /\ j < hi) ->
         mget (fst t1) i' j = mget (fst t2) i' j))); [lia| |].
    - cbn [fst snd]. repeat split; try assumption; try (destruct H1, H2; assumption).
      intros i' j [[Hi' Hj]|[_ Hj]]; [apply Hprev; assumption|lia].
    - intros j [M1 g1] [M2 g2] Hj (Hg & Hs1 & Hs2 & Hagree).
      cbn [fst snd] in *. subst g2. unfold body, draw_into.
      destruct (uniform_real a b g1) as [x g']. cbn [fst snd].
      split; [reflexivity|]. split; [apply square_mset, Hs1|].
      split; [apply square_mset, Hs2|].
      intros i' j' Hc.
      destruct (decide (i' = i /\ j' = j)) as [[-> ->]|Hne].
      + rewrite !(mget_mset_square n) by (assumption || lia). reflexivity.
      + assert (Hd : i <> i' \/ j <> j')
          by (destruct (decide (i = i'));
              [right; intros Heq; apply Hne; split; congruence|left; assumption]).
        rewrite !mget_mset_ne by exact Hd.
        apply Hagree. destruct Hc as [Hc|[-> Hc]]; [left; exact Hc|right; split; [reflexivity|]].
        destruct (decide (j' = j)) as [->|Hj']; [exfalso; apply Hne; split; reflexivity|lia]. }
  destruct H as (Hg & Hs1 & Hs2 & Hagree).
  split; [exact Hg|]. split; [exact Hs1|]. split; [exact Hs2|].
  intros i' j Hi' Hj. apply Hagree.
  destruct (decide (i' = i)); [right|left]; split; try assumption; lia.
Qed.

(** Two fills of [B] from the same engine state give the same vector. *)
Lemma fill_vector_lockstep a b m (B1 B2 : vector_t) (g : engine) :
  length B1 = m -> length B2 = m ->
  let body := fun i => draw_into engine uniform_real a b (fun B x => vset B i x) in
  fst (for_loop 0 m body (B1, g)) = fst (for_loop 0 m body (B2, g)).
Proof.
  intros H1 H2 body.
  assert (H : let s1 := for_loop 0 m body (B1, g) in
              let s2 := for_loop 0 m body (B2, g) in
              snd s1 = snd s2 /\ length (fst s1) = m /\ length (fst s2) = m /\
              (forall j, j < m -> vget (fst s1) j = vget (fst s2) j)).
  { cbv zeta.
    apply (for_loop_ind2 (fun hi (t1 t2 : vector_t * engine) =>
      snd t1 = snd t2 /\ length (fst t1) = m /\ length (fst t2) = m /\
      (forall j, j < hi -> vget (fst t1) j = vget (fst t2) j))); [lia| |].
    - cbn [fst snd]. repeat split; try assumption. intros j Hj. lia.
    - intros i [V1 g1] [V2 g2] Hi (Hg & Hl1 & Hl2 & Hagree).
      cbn [fst snd] in *. subst g2. unfold body, draw_into.
      destruct (uniform_real a b g1) as [x g']. cbn [fst snd].
      split; [reflexivity|]. rewrite !length_vset.
      split; [exact Hl1|]. split; [exact Hl2|].
      intros j Hj. destruct (decide (j = i)) as [->|Hne].
      + rewrite !vget_vset_eq by lia. reflexivity.
      + rewrite !vget_vset_ne by congruence. apply Hagree. lia. }
  destruct H as (_ & Hl1 & Hl2 & Hagree).
  apply (vector_ext m); assumption.
Qed.

(** Two fills of the whole matrix from the same engine state. *)
Lemma fill_matrix_lockstep a b n (A1 A2 : matrix_t) (g : engine) :
  square n A1 -> square n A2 ->
  let body := fun i => for_loop 0 n
    (fun j => draw_into engine uniform_real a b (fun A x => mset A i j x)) in
  for_loop 0 n body (A1, g) = for_loop 0 n body (A2, g)
  /\ square n (fst (for_loop 0 n body (A1, g))).
Proof.
  intros H1 H2 body.
  assert (H : let s1 := for_loop 0 n body (A1, g) in
              let s2 := for_loop 0 n body (A2, g) in
              snd s1 = snd s2 /\ square n (fst s1) /\ square n (fst s2) /\
              (forall i' j, i' < n -> j < n -> mget (fst s1) i' j = mget (fst s2) i' j)).
  { cbv zeta.
    apply (for_loop_ind2 (fun hi (t1 t2 : matrix_t * engine) =>
      snd t1 = snd t2 /\ square n (fst t1) /\ square n (fst t2) /\
      (forall i' j, i' < hi -> j < n -> mget (fst t1) i' j = mget (fst t2) i' j)));
      [lia| |].
    - cbn [fst snd]. repeat split; try assumption; try (destruct H1, H2; assumption).
      intros i' j Hi'. lia.
    - intros i [M1 g1] [M2 g2] Hi (Hg & Hs1 & Hs2 & Hagree).
      cbn [fst snd] in *. subst g2. unfold body.
      apply fill_row_lockstep; [lia|assumption|assumption|exact Hagree]. }
  destruct H as (Hg & Hs1 & Hs2 & Hagree).
  split; [|exact Hs1].
  destruct (for_loop 0 n body (A1, g)) as [M1 g1].
  destruct (for_loop 0 n body (A2, g)) as [M2 g2].
  cbn [fst snd] in *. subst g2. f_equal. apply (square_ext n); assumption.
Qed.

(** The contents after a fill do not depend on the contents before it. *)
Lemma fill_overwrites seed range n (A1 A2 : matrix_t) (B1 B2 : vector_t) :
  square n A1 -> square n A2 -> length B1 = length B2 ->
  fill seed A1 B1 range = fill seed A2 B2 range
  /\ square n (fst (fill seed A1 B1 range))
  /\ length (snd (fill seed A1 B1 range)) = length B1.
Proof.
  intros H1 H2 HB. unfold fill, initializeFromSeed.
  replace (length A1) with n by (destruct H1; congruence).
  replace (length A2) with n by (destruct H2; congruence).
  destruct (fill_matrix_lockstep (of_Z (negate_unsigned range)) (of_Z range) n A1 A2
              (mt19937 seed) H1 H2) as [HA Hsq].
  cbv zeta in HA, Hsq. rewrite <- HA.
  destruct (for_loop 0 n _ (A1, mt19937 seed)) as [A g]. cbn [fst] in Hsq.
  rewrite <- HB.
  pose proof (fill_vector_lockstep (of_Z (negate_unsigned range)) (of_Z range)
                (length B1) B1 B2 g eq_refl (eq_sym HB)) as HV.
  cbv zeta in HV.
  assert (HL : length (fst (for_loop 0 (length B1)
      (fun i => draw_into engine uniform_real (of_Z (negate_unsigned range)) (of_Z range)
                  (fun B x => vset B i x)) (B1, g))) = length B1).
  { apply (for_loop_ind (fun _ (t : vector_t * engine) => length (fst t) = length B1));
      [lia|reflexivity|].
    intros i [V g0] _ Hl. unfold draw_into. destruct (uniform_real _ _ g0) as [x g'].
    cbn [fst] in *. rewrite length_vset. exact Hl. }
  destruct (for_loop 0 (length B1) _ (B1, g)) as [V1 g1].
  destruct (for_loop 0 (length B1) _ (B2, g)) as [V2 g2].
  cbn [fst snd] in *. subst V2. split; [reflexivity|]. split; [exact Hsq|exact HL].
Qed.

End InitializerProperties.

Lemma back_substitution_length A B X :
  length (fst (back_substitution A B X)) = length B.
Proof.
  unfold back_substitution.
  apply (for_down_ind (fun _ (s : vector_t * vector_t) => length (fst s) = length B));
    [lia|reflexivity|].
  intros i [Bi Xi] _ Hl. unfold substitute. cbn [fst] in *.
  apply (for_down_ind (fun _ (V : vector_t) => length V = length B)); [lia|exact Hl|].
  intros k V _ HV. rewrite length_vset. exact HV.
Qed.

(** [gauss] keeps the dimensions of [A] and [B]. *)
Lemma gauss_keeps_dimensions rs fs n A B X out A' B' X' :
  square n A -> length B = n ->
  gauss rs fs A B X = (out, Returned (A', B', X')) ->
  square n A' /\ length B' = n.
Proof.
  intros HA HB H. apply gauss_returned in H. destruct H as (B1 & H1 & H2).
  replace (length A) with n in H1 by (destruct HA; congruence).
  destruct (gauss_columns_invariant rs fs n A B n out A' B1 HA HB ltac:(lia) H1)
    as (_ & Hsq & Hlen & _).
  split; [exact Hsq|].
  pose proof (back_substitution_length A' B1 X) as HL. rewrite H2 in HL.
  cbn [fst] in HL. congruence.
Qed.

(** C3.  [initializeFromSeed] is determined by [seed], the dimension and
    [range]: whatever [A] and [B] held before, two calls leave the same
    contents.  Hence filling the arrays again after [gauss] has transformed
    them gives back exactly the system that [gauss] was started on. *)
Theorem initializeFromSeed_deterministic
    (engine : Type) (mt19937 : Z -> engine)
    (uniform_real : double -> double -> engine -> double * engine)
    rs fs seed range n (A0 A1 : matrix_t) (B0 B1 : vector_t) :
  square n A0 -> square n A1 -> length B0 = n -> length B1 = n ->
  let init := fun A B => initializeFromSeed engine mt19937 uniform_real seed A B range in
  init A0 B0 = init A1 B1 /\
  (forall X out A' B' X',
     gauss rs fs (fst (init A0 B0)) (snd (init A0 B0)) X = (out, Returned (A', B', X')) ->
     init A' B' = init A0 B0).
Proof.
  intros HA0 HA1 HB0 HB1 init. subst init. cbv beta. split.
  - apply (fill_overwrites engine mt19937 uniform_real seed range n); congruence.
  - intros X out A' B' X' H.
    destruct (fill_overwrites engine mt19937 uniform_real seed range n A0 A0 B0 B0
                HA0 HA0 eq_refl) as (_ & Hsq & Hlen).
    rewrite HB0 in Hlen.
    destruct (gauss_keeps_dimensions rs fs n _ _ X out A' B' X' Hsq Hlen H)
      as [Hsq' Hlen'].
    apply (fill_overwrites engine mt19937 uniform_real seed range n); congruence.
Qed.

Lemma initializeFromSeed_deterministic_witness :
  let init := fun A B =>
    initializeFromSeed counter_engine counter_seed counter_draw 1 A B 65536 in
  init (M_of [[0; 0]; [0; 0]]%Z) (V_of [0; 0]%Z)
  = init (M_of [[1; 2]; [3; 4]]%Z) (V_of [5; 6]%Z) /\
  init (M_of [[0; 0]; [0; 0]]%Z) (V_of [0; 0]%Z)
  = (M_of [[4294901761; 4294901762]; [4294901763; 4294901764]]%Z,
     V_of [4294901765; 4294901766]%Z).
Proof.
  intros init. split.
  - apply (initializeFromSeed_deterministic counter_engine counter_seed counter_draw
             unsplit_all unsplit_all 1 65536 2
             (M_of [[0; 0]; [0; 0]]%Z) (M_of [[1; 2]; [3; 4]]%Z)
             (V_of [0; 0]%Z) (V_of [5; 6]%Z)).
    + split; [reflexivity|]. repeat constructor.
    + split; [reflexivity|]. repeat constructor.
    + reflexivity.
    + reflexivity.
  - vm_compute. reflexivity.
Defined.

(** ** The reduction of the pivot search *)

(** Exchanging the operands of a comparison reverses its result. *)
Lemma compare_antisym x y :
  SFcompare y x = option_map CompOpp (SFcompare x y).
Proof.
  destruct x as [[]|[]| |[] m e]; destruct y as [[]|[]| |[] m0 e0];
    cbn [SFcompare option_map CompOpp]; try reflexivity.
  all: rewrite (Z.compare_antisym e e0).
  all: destruct (Z.compare e e0); cbn [CompOpp]; try reflexivity.
  all: rewrite (Pos.compare_cont_antisym m m0 Eq); reflexivity.
Qed.


Lemma leb_not_gtb x y : leb x y = true -> (x >? y)%D = false.
Proof.
  unfold leb, SFleb, gtb, SFltb. rewrite (compare_antisym x y).
  destruct (SFcompare x y) as [[]|]; simpl; congruence.
Qed.




(** ** Command-line flags *)

(** An option that does not end the run flips exactly the flag it names. *)
Lemma handle_option_flags o optarg c0 out c1 :
  handle_option o optarg c0 = (out, Returned c1) ->
  verbose c1 = xorb (verbose c0) (Ascii.eqb o "v") /\
  docheck c1 = xorb (docheck c0) (Ascii.eqb o "c") /\
  parallel c1 = xorb (parallel c0) (Ascii.eqb o "p").
Proof.
  unfold handle_option.
  repeat match goal with
         | |- context [Ascii.eqb o ?f] =>
             destruct (Ascii.eqb_spec o f) as [->|?]; cbn [Ascii.eqb Bool.eqb]
         end;
    simpl; intros H; try discriminate; injection H as <- <-; simpl;
    rewrite ?xorb_false_r, ?xorb_true_r; repeat split.
Qed.

Lemma odd_occurrence (b : bool) n :
  Nat.odd ((if b then 1 else 0) + n) = xorb b (Nat.odd n).
Proof.
  destruct b; simpl plus; [|reflexivity].
  rewrite Nat.odd_succ, <- Nat.negb_odd. reflexivity.
Qed.

Lemma parse_options_flags opts c0 out c :
  parse_options opts c0 = (out, Returned c) ->
  verbose c = xorb (verbose c0) (Nat.odd (occurrences "v" opts)) /\
  docheck c = xorb (docheck c0) (Nat.odd (occurrences "c" opts)) /\
  parallel c = xorb (parallel c0) (Nat.odd (occurrences "p" opts)).
Proof.
  revert c0 out. induction opts as [|[o optarg] opts IH]; intros c0 out H.
  - simpl in H. injection H as _ <-. simpl. rewrite !xorb_false_r. repeat split.
  - cbn [parse_options] in H. apply bind_returned in H.
    destruct H as (o1 & c1 & o2 & H1 & H2 & _).
    destruct (handle_option_flags _ _ _ _ _ H1) as (Hv & Hc & Hp).
    destruct (IH _ _ H2) as (Hv' & Hc' & Hp').
    cbn [occurrences]. rewrite !odd_occurrence, Hv', Hc', Hp', Hv, Hc, Hp.
    rewrite !xorb_assoc. repeat split.
Qed.

(** C10.  Every occurrence of [-v], [-c] or [-p] negates its flag.  For a
    command line that is accepted, [verbose] and [parallel] end up true
    exactly when their flag occurs an odd number of times and [docheck] ends
    up true exactly when [-c] occurs an even number of times; and two
    occurrences of the same flag in a row leave the configuration as it
    was. *)
Theorem flags_toggle opts out c :
  parse_options opts initial_config = (out, Returned c) ->
  (verbose c = Nat.odd (occurrences "v" opts) /\
   docheck c = Nat.even (occurrences "c" opts) /\
   parallel c = Nat.odd (occurrences "p" opts)) /\
  (forall f a1 a2 c0, f = "v"%char \/ f = "c"%char \/ f = "p"%char ->
     parse_options [(f, a1); (f, a2)] c0 = ret c0).
Proof.
  intros H. split.
  - destruct (parse_options_flags _ _ _ _ H) as (Hv & Hc & Hp).
    cbn [verbose docheck parallel initial_config] in Hv, Hc, Hp.
    split; [rewrite Hv; reflexivity|]. split; [|rewrite Hp; reflexivity].
    rewrite Hc, <- Nat.negb_odd. destruct (Nat.odd _); reflexivity.
  - intros f a1 a2 [sd sz rg v d p] [-> | [-> | ->]]; unfold ret; simpl;
      rewrite negb_involutive; reflexivity.
Qed.

Lemma flags_toggle_witness :
  exists c,
    parse_options [flag "v"; flag "p"; option_arg "n" "3"; flag "v"; flag "c"]
      initial_config = ([], Returned c) /\
    verbose c = false /\ docheck c = false /\ parallel c = true /\ size c = 3%Z.
Proof.
  eexists. split; [reflexivity|].
  pose proof (flags_toggle
    [flag "v"; flag "p"; option_arg "n" "3"; flag "v"; flag "c"]
    [] _ eq_refl) as [(Hv & Hc & Hp) _].
  split; [exact Hv|]. split; [exact Hc|]. split; [exact Hp|reflexivity].
Defined.

(** C2, as the code has it.  After the options are parsed, [gauss] is run
    exactly when [-p] occurred an even number of times.  When it occurred an
    odd number of times the program prints that the parallel version is not
    implemented, does not run [gauss], and leaves [A], [B] and [X] as they
    were. *)
Theorem solve_follows_parallel_flag rs fs opts out c A B X :
  parse_options opts initial_config = (out, Returned c) ->
  (Nat.even (occurrences "p" opts) = true ->
     solve rs fs (parallel c) A B X = gauss rs fs A B X) /\
  (Nat.odd (occurrences "p" opts) = true ->
     solve rs fs (parallel c) A B X = ([OutNotImplemented], Returned (A, B, X))).
Proof.
  intros H. destruct (parse_options_flags _ _ _ _ H) as (_ & _ & Hp).
  simpl in Hp. rewrite Hp. unfold solve. split; intros Hn.
  - rewrite <- Nat.negb_odd in Hn. destruct (Nat.odd _); [discriminate|reflexivity].
  - rewrite Hn. reflexivity.
Qed.

Lemma solve_follows_parallel_flag_witness :
  let A := M_of [[2]]%Z in
  let B := V_of [4]%Z in
  let X := V_of [0]%Z in
  exists c,
    parse_options [flag "p"; flag "v"; flag "p"] initial_config
      = ([], Returned c) /\
    solve unsplit_all unsplit_all (parallel c) A B X
      = gauss unsplit_all unsplit_all A B X.
Proof.
  intros A B X. eexists. split; [reflexivity|].
  apply (solve_follows_parallel_flag unsplit_all unsplit_all
           [flag "p"; flag "v"; flag "p"] [] _ A B X eq_refl).
  reflexivity.
Defined.

(** C2, as stated, fails: with [-p] given once the program does not run
    [gauss]; [X] keeps what it held, where [gauss] would have stored the
    solution. *)
Lemma parallel_flag_skips_gauss :
  let A := M_of [[2]]%Z in
  let B := V_of [4]%Z in
  let X := V_of [0]%Z in
  exists c,
    parse_options [flag "p"] initial_config = ([], Returned c) /\
    solve unsplit_all unsplit_all (parallel c) A B X
      = ([OutNotImplemented], Returned (A, B, X)) /\
    gauss unsplit_all unsplit_all A B X = ([], Returned (A, B, V_of [2]%Z)) /\
    solve unsplit_all unsplit_all (parallel c) A B X
      <> gauss unsplit_all unsplit_all A B X.
Proof.
  intros A B X. eexists. split; [reflexivity|].
  split; [reflexivity|]. split; [vm_compute; reflexivity|].
  vm_compute. discriminate.
Qed.

(** ** The verifier *)

(** [check] always returns to its caller. *)
Lemma check_rows_returns rows A B X :
  exists out, check_rows rows A B X = (out, Returned tt).
Proof.
  induction rows as [|i rows IH]; simpl.
  - eexists. reflexivity.
  - destruct (row_fails A B X i); [eexists; reflexivity|exact IH].
Qed.

(** [check] declares success exactly when the test of line 181 is false for
    every row. *)
Lemma check_rows_succeeds rows A B X :
  check_rows rows A B X = ([OutVerificationSucceeded], Returned tt)
  <-> Forall (fun i => row_fails A B X i = false) rows.
Proof.
  induction rows as [|i rows IH]; simpl.
  - split; [constructor|reflexivity].
  - destruct (row_fails A B X i) eqn:E.
    + split; [discriminate|]. intros H. inversion H. congruence.
    + rewrite IH. split; [intros H; constructor; assumption|].
      intros H. inversion H. assumption.
Qed.

(** At the first row for which the test is true, [check] prints the index,
    [ans] and [B[i]], and returns without looking at later rows. *)
Lemma check_rows_first_failure before i after A B X :
  Forall (fun j => row_fails A B X j = false) before ->
  row_fails A B X i = true ->
  check_rows (before ++ i :: after) A B X
  = ([OutVerificationFailed i (row_product A X i) (vget B i)], Returned tt).
Proof.
  intros Hb Hi. induction Hb as [|j before Hj _ IH]; simpl.
  - rewrite Hi. reflexivity.
  - rewrite Hj. exact IH.
Qed.

Lemma check_first_failure A B X i :
  i < length A ->
  (forall j, j < i -> row_fails A B X j = false) ->
  row_fails A B X i = true ->
  check A B X = ([OutVerificationFailed i (row_product A X i) (vget B i)], Returned tt).
Proof.
  intros Hi Hb Hf. unfold check.
  replace (length A) with (i + S (length A - S i)) by lia.
  rewrite seq_app. cbn [seq Nat.add].
  apply check_rows_first_failure; [|exact Hf].
  apply List.Forall_forall. intros j Hj. apply in_seq in Hj. apply Hb. lia.
Qed.

(** A ratio inside the window passes the test of line 181. *)
Lemma window_passes A B X i :
  ratio_in_window A B X i -> row_fails A B X i = false.
Proof.
  unfold ratio_in_window, row_fails. intros [H1 H2].
  apply orb_false_intro.
  - apply (leb_not_gtb _ _ H1).
  - apply (leb_not_gtb _ _ H2).
Qed.

(** When every ratio is inside the window, [check] declares success. *)
Lemma check_succeeds_in_window A B X :
  (forall i, i < length A -> ratio_in_window A B X i) ->
  check A B X = ([OutVerificationSucceeded], Returned tt).
Proof.
  intros H. apply check_rows_succeeds. apply List.Forall_forall.
  intros i Hi. apply in_seq in Hi. apply window_passes, H. lia.
Qed.

(** C8.  [check] does not reject a ratio that is a NaN.  The regular system
    x1 = 1, x0 + x1 = 2 has a zero in its first diagonal entry; [gauss]
    returns NaN for both unknowns, every ratio computed by [check] is a NaN,
    which is not inside the window, and [check] declares success.  A NaN
    ratio also arises from finite data, when [ans] and [B[i]] are both zero. *)
Theorem check_accepts_nan :
  let A := M_of [[0; 1]; [1; 1]]%Z in
  let B := V_of [1; 2]%Z in
  (exists A' B', gauss unsplit_all unsplit_all A B (V_of [0; 0]%Z)
                 = ([], Returned (A', B', [nan; nan]))) /\
  check A B [nan; nan] = ([OutVerificationSucceeded], Returned tt) /\
  row_ratio A B [nan; nan] 0 = nan /\
  ~ ratio_in_window A B [nan; nan] 0 /\
  check (M_of [[1]]%Z) (V_of [0]%Z) (V_of [0]%Z)
    = ([OutVerificationSucceeded], Returned tt) /\
  ~ ratio_in_window (M_of [[1]]%Z) (V_of [0]%Z) (V_of [0]%Z) 0.
Proof.
  intros A B. split; [eexists _, _; vm_compute; reflexivity|].
  split; [vm_compute; reflexivity|]. split; [vm_compute; reflexivity|].
  split; [intros [H _]; vm_compute in H; discriminate|].
  split; [vm_compute; reflexivity|].
  intros [H _]. vm_compute in H. discriminate.
Qed.

(** ** The exit status of the program *)

Lemma gauss_columns_cases rs fs cols s :
  gauss_columns rs fs cols s = ([OutSingular], Exited (-1)%Z) \/
  exists s', gauss_columns rs fs cols s = ([], Returned s').
Proof.
  revert s. induction cols as [|i cols IH]; intros s; cbn [gauss_columns].
  - right. eexists. reflexivity.
  - destruct (gauss_column_cases rs fs i s) as [H|[s' H]]; rewrite H.
    + left. reflexivity.
    + change ([], Returned s') with (ret s'). rewrite bind_ret_l. apply IH.
Qed.

Lemma gauss_cases rs fs A B X :
  gauss rs fs A B X = ([OutSingular], Exited (-1)%Z) \/
  exists r, gauss rs fs A B X = ([], Returned r).
Proof.
  unfold gauss, eliminate.
  destruct (gauss_columns_cases rs fs (seq 0 (length A)) (A, B)) as [H|[[A' B'] H]];
    rewrite H.
  - left. reflexivity.
  - right. change ([], Returned (A', B')) with (ret (A', B')). rewrite bind_ret_l.
    destruct (back_substitution A' B' X) as [B2 X2]. eexists. reflexivity.
Qed.

Section MainProperties.

Variable reduce_schedule : nat -> schedule.
Variable for_schedule : nat -> schedule.
Variable engine : Type.
Variable mt19937 : Z -> engine.
Variable uniform_real : double -> double -> engine -> double * engine.
Variable heap : nat -> nat -> double.
Variable memory : Z -> bool.

Let run_main :=
  run reduce_schedule for_schedule engine mt19937 uniform_real heap memory.

(** When the storage cannot be allocated the program is aborted right after
    the configuration line. *)
Lemma run_without_memory c :
  allocation_fails memory (size c) = true ->
  run_main c = ([OutConfig (seed c) (size c) (range c) (parallel c)], Aborted).
Proof.
  intros Hf. unfold run_main, run, allocate. rewrite Hf. reflexivity.
Qed.

(** Once the options are accepted and the storage is allocated, the program
    ends with status [0], unless [gauss] has stopped it on a singular matrix:
    what [check] finds has no part in the exit status. *)
Lemma run_exit_status c :
  allocation_fails memory (size c) = false ->
  exit_status (run_main c) = Some 0%Z \/
  (exit_status (run_main c) = Some (-1)%Z /\ In OutSingular (stdout (run_main c))).
Proof.
  intros Hf. unfold run_main, run, allocate, exit_status, result, stdout.
  rewrite Hf. cbn [bind print ret].
  destruct (initializeFromSeed _ _ _ _ _ _ _) as [A B].
  set (X := new_array heap _ _). clearbody X.
  assert (Hsolve : solve reduce_schedule for_schedule (parallel c) A B X
                   = ([OutSingular], Exited (-1)%Z) \/
                   exists o r, solve reduce_schedule for_schedule (parallel c) A B X
                               = (o, Returned r)).
  { unfold solve. destruct (parallel c).
    - right. eexists _, _. reflexivity.
    - destruct (gauss_cases reduce_schedule for_schedule A B X) as [H|[r H]];
        [left; exact H|right; eexists _, _; exact H]. }
  destruct Hsolve as [H|(o & [[A' B'] X'] & H)]; rewrite H.
  - right. destruct (verbose c); simpl; (split; [reflexivity|tauto]).
  - left. unfold bind, print, ret. cbv beta iota.
    destruct (initializeFromSeed engine mt19937 uniform_real (seed c) A' B' _) as [A2 B2].
    destruct (check_rows_returns (seq 0 (length A2)) A2 B2 X') as [oc Hc].
    unfold check. destruct (verbose c), (docheck c); simpl; rewrite ?Hc; reflexivity.
Qed.

End MainProperties.

(* ===================================================================== *)
(** * Further properties of the program *)
(* ===================================================================== *)

(** ** [gauss] *)

Lemma gauss_columns_schedule rs fs rs' fs' cols s :
  gauss_columns rs fs cols s = gauss_columns rs' fs' cols s.
Proof.
  revert s. induction cols as [|i cols IH]; intros [A B]; cbn [gauss_columns];
    [reflexivity|].
  rewrite (gauss_column_spec rs fs), (gauss_column_spec rs' fs').
  destruct (_ =? zero)%D; [reflexivity|].
  change ([], Returned (sweep i (A, B))) with (ret (sweep i (A, B))).
  rewrite !bind_ret_l. apply IH.
Qed.

(** X1.  The way TBB cuts the row ranges has no influence on [gauss]: for
    any two choices of schedules the output, the exit behaviour and the
    contents of [A], [B] and [X] are the same. *)
Theorem gauss_schedule_independent rs fs rs' fs' A B X :
  gauss rs fs A B X = gauss rs' fs' A B X.
Proof.
  unfold gauss, eliminate.
  rewrite (gauss_columns_schedule rs fs rs' fs'). reflexivity.
Qed.

(** X2.  After the pivot search, [big] holds the largest magnitude found in
    column [i] from the diagonal down, provided these entries are numbers. *)
Theorem pivot_search_finds_maximum rs A i n :
  length A = n -> i < n -> column_numeric A i n ->
  column_maximum A i n (fst (pivot_search rs A i)).
Proof.
  intros Hn Hi Hnum. rewrite pivot_search_spec, Hn. cbn [fst].
  apply running_max_is_maximum; assumption.
Qed.

Lemma pivot_search_finds_maximum_witness :
  let A := M_of [[1; 2]; [-3; 4]]%Z in
  fst (pivot_search split_all A 0) = of_Z 3 /\
  column_maximum A 0 2 (fst (pivot_search split_all A 0)).
Proof.
  intros A. split; [vm_compute; reflexivity|].
  apply (pivot_search_finds_maximum split_all A 0 2 eq_refl); [lia|].
  intros k Hk. destruct k as [|[|k]]; [reflexivity|reflexivity|lia].
Defined.

(** X3.  [gauss] has two outcomes only: it prints the singularity message and
    nothing else and calls [exit(-1)], or it prints nothing and returns. *)
Theorem gauss_silent_or_singular rs fs A B X :
  gauss rs fs A B X = ([OutSingular], Exited (-1)%Z) \/
  exists A' B' X', gauss rs fs A B X = ([], Returned (A', B', X')).
Proof.
  destruct (gauss_cases rs fs A B X) as [H|[[[A' B'] X'] H]].
  - left. exact H.
  - right. exists A', B', X'. exact H.
Qed.

(** X4.  [gauss] keeps the sizes: an [n] by [n] matrix with vectors of size
    [n] gives back an [n] by [n] matrix and vectors of size [n]. *)
Theorem gauss_preserves_shape rs fs n A B X out A' B' X' :
  square n A -> length B = n -> length X = n ->
  gauss rs fs A B X = (out, Returned (A', B', X')) ->
  square n A' /\ length B' = n /\ length X' = n.
Proof.
  intros HA HB HX H.
  destruct (gauss_keeps_dimensions rs fs n A B X out A' B' X' HA HB H) as [Hsq Hlen].
  split; [exact Hsq|]. split; [exact Hlen|].
  apply gauss_returned in H. destruct H as (B1 & H1 & H2).
  replace (length A) with n in H1 by (destruct HA; congruence).
  destruct (gauss_columns_invariant rs fs n A B n out A' B1 HA HB ltac:(lia) H1)
    as (_ & _ & HB1 & _).
  destruct (substitute_iterations n A' B1 X 0 HB1 HX ltac:(lia)) as (_ & HX' & _).
  unfold back_substitution in H2.
  replace (length A') with n in H2 by (destruct Hsq; congruence).
  rewrite H2 in HX'. exact HX'.
Qed.

Lemma gauss_preserves_shape_witness :
  exists A' B' X',
    gauss split_all split_all textbook_A textbook_B (V_of [0; 0; 0]%Z)
      = ([], Returned (A', B', X')) /\
    square 3 A' /\ length B' = 3 /\ length X' = 3.
Proof.
  eexists _, _, _. split; [vm_compute; reflexivity|].
  refine (gauss_preserves_shape split_all split_all 3 textbook_A textbook_B
            (V_of [0; 0; 0]%Z) [] _ _ _ _ _ _ _).
  - split; [reflexivity|]. repeat constructor.
  - reflexivity.
  - reflexivity.
  - vm_compute. reflexivity.
Defined.

(** X5.  Column [i] of the elimination writes only below row [i] and from
    column [i] on: the rows up to [i], the columns before [i] and the entries
    of [B] up to [i] are left exactly as they were. *)
Theorem column_step_frame rs fs n A B i out A' B' :
  square n A -> length B = n -> i < n ->
  gauss_column rs fs i (A, B) = (out, Returned (A', B')) ->
  (forall k j, k <= i -> mget A' k j = mget A k j) /\
  (forall k j, k < n -> j < i -> mget A' k j = mget A k j) /\
  (forall k, k <= i -> vget B' k = vget B k).
Proof.
  intros HA HB Hi H. apply gauss_column_returned in H. destruct H as [_ Hs].
  destruct (sweep_spec n A B i HA HB Hi) as (_ & _ & Hrows & HkA & HkB).
  rewrite <- Hs in Hrows, HkA, HkB. cbn [fst snd] in *.
  split; [exact HkA|]. split; [|exact HkB].
  intros k j Hk Hj. destruct (decide (k <= i)) as [Hle|Hgt].
  - apply HkA, Hle.
  - destruct (Hrows k ltac:(lia)) as ((_ & _ & Hl) & _). apply Hl, Hj.
Qed.

Lemma column_step_frame_witness :
  exists A' B',
    gauss_column split_all split_all 1
      (M_of [[2; 1; 1]; [0; 4; 2]; [0; 2; 5]]%Z, V_of [1; 2; 3]%Z)
      = ([], Returned (A', B')) /\
    A' = M_of [[2; 1; 1]; [0; 4; 2]; [0; 0; 4]]%Z /\
    (forall k j, k <= 1 ->
       mget A' k j = mget (M_of [[2; 1; 1]; [0; 4; 2]; [0; 2; 5]]%Z) k j).
Proof.
  eexists _, _. split; [vm_compute; reflexivity|]. split; [vm_compute; reflexivity|].
  refine (proj1 (column_step_frame split_all split_all 3 _ (V_of [1; 2; 3]%Z) 1 []
                   _ _ _ _ _ _)).
  - split; [reflexivity|]. repeat constructor.
  - reflexivity.
  - lia.
  - vm_compute. reflexivity.
Defined.

Lemma gauss_columns_first_row rs fs n A B c out A' B' :
  square n A -> length B = n -> c <= n ->
  gauss_columns rs fs (seq 0 c) (A, B) = (out, Returned (A', B')) ->
  forall j, mget A' 0 j = mget A 0 j.
Proof.
  intros HA HB. revert out A' B'. induction c as [|c IH]; intros out A' B' Hc H.
  - simpl in H. injection H as _ <- _. reflexivity.
  - rewrite seq_S, gauss_columns_app in H. cbn [Nat.add] in H.
    apply bind_returned in H. destruct H as (o1 & [Ac Bc] & o2 & H1 & H2 & _).
    destruct (gauss_columns_invariant rs fs n A B c o1 Ac Bc HA HB ltac:(lia) H1)
      as (_ & Hsq & Hlen & _).
    cbn [gauss_columns] in H2. rewrite bind_ret_r in H2.
    apply gauss_column_returned in H2. destruct H2 as [_ Hs].
    destruct (sweep_spec n Ac Bc c Hsq Hlen ltac:(lia)) as (_ & _ & _ & HkA & _).
    rewrite <- Hs in HkA. cbn [fst] in HkA.
    intros j. rewrite HkA by lia. exact (IH o1 Ac Bc ltac:(lia) H1 j).
Qed.

(** X6.  [gauss] never changes the first row of [A]: whatever the first
    column holds, the first equation stays in place and [A[0][0]] is the
    first pivot. *)
Theorem gauss_first_row_unchanged rs fs n A B X out A' B' X' :
  square n A -> length B = n ->
  gauss rs fs A B X = (out, Returned (A', B', X')) ->
  forall j, mget A' 0 j = mget A 0 j.
Proof.
  intros HA HB H. apply gauss_returned in H. destruct H as (B1 & H1 & _).
  replace (length A) with n in H1 by (destruct HA; congruence).
  exact (gauss_columns_first_row rs fs n A B n out A' B1 HA HB ltac:(lia) H1).
Qed.

Lemma gauss_first_row_unchanged_witness :
  let A := M_of [[1; 2]; [3; 4]]%Z in
  exists A' B' X',
    gauss split_all split_all A (V_of [5; 6]%Z) (V_of [0; 0]%Z)
      = ([], Returned (A', B', X')) /\
    forall j, mget A' 0 j = mget A 0 j.
Proof.
  intros A. eexists _, _, _. split; [vm_compute; reflexivity|].
  refine (gauss_first_row_unchanged split_all split_all 2 A (V_of [5; 6]%Z)
            (V_of [0; 0]%Z) [] _ _ _ _ _ _).
  - split; [reflexivity|]. repeat constructor.
  - reflexivity.
  - vm_compute. reflexivity.
Defined.

(** Dividing by a zero never gives a finite number. *)
Lemma div_by_zero_not_finite x z :
  (z =? zero)%D = true -> is_finite (x / z)%D = false.
Proof.
  intros Hz. destruct z as [sz|[]| |[] ? ?]; simpl in Hz; try discriminate.
  destruct x as [sx|sx| |sx m e]; reflexivity.
Qed.

(** X7.  A zero on the diagonal is no singularity for [gauss] as long as the
    column holds a non-zero entry below it: the column is processed, and
    every factor [c] of the sweep, a quotient by that zero, is an infinity or
    a NaN that the sweep adds into [B]. *)
Theorem zero_pivot_is_divided_by rs fs n A B i k :
  square n A -> length B = n -> i < k < n ->
  column_numeric A i n ->
  (mget A i i =? zero)%D = true ->
  (mget A k i =? zero)%D = false ->
  exists A' B',
    gauss_column rs fs i (A, B) = ([], Returned (A', B')) /\
    forall k', i < k' < n ->
      is_finite (- mget A k' i / mget A i i)%D = false /\
      vget B' k' = (vget B k' + (- mget A k' i / mget A i i) * vget B i)%D.
Proof.
  intros HA HB Hk Hnum Hz Hnz.
  assert (Hn : length A = n) by (destruct HA; assumption).
  destruct (gauss_column_cases rs fs i (A, B)) as [Hs|[[A' B'] Hr]].
  - exfalso. apply gauss_column_singular_iff in Hs. rewrite Hn in Hs.
    rewrite (running_max_zero A i n ltac:(lia) Hnum) in Hs.
    specialize (Hs k ltac:(lia)). rewrite eqb_zero_abs in Hs. congruence.
  - exists A', B'. split; [exact Hr|].
    intros k' Hk'. split; [apply div_by_zero_not_finite, Hz|].
    apply gauss_column_returned in Hr. destruct Hr as [_ Hsw].
    destruct (sweep_spec n A B i HA HB ltac:(lia)) as (_ & _ & Hrows & _).
    rewrite <- Hsw in Hrows. cbn [fst snd] in Hrows.
    destruct (Hrows k' Hk') as (_ & Hb). exact Hb.
Qed.

Lemma zero_pivot_is_divided_by_witness :
  let A := M_of [[0; 1]; [1; 1]]%Z in
  let B := V_of [1; 2]%Z in
  exists A' B',
    gauss_column split_all split_all 0 (A, B) = ([], Returned (A', B')) /\
    B' = [of_Z 1; S754_infinity true] /\
    forall k', 0 < k' < 2 ->
      is_finite (- mget A k' 0 / mget A 0 0)%D = false /\
      vget B' k' = (vget B k' + (- mget A k' 0 / mget A 0 0) * vget B 0)%D.
Proof.
  intros A B.
  assert (Hnum : column_numeric A 0 2).
  { intros k Hk. destruct k as [|[|k]]; [reflexivity|reflexivity|lia]. }
  assert (HA : square 2 A) by (split; [reflexivity|repeat constructor]).
  destruct (zero_pivot_is_divided_by split_all split_all 2 A B 0 1 HA eq_refl
              ltac:(lia) Hnum eq_refl eq_refl) as (A' & B' & Hrun & Hall).
  exists A', B'. split; [exact Hrun|]. split; [|exact Hall].
  assert (E : gauss_column split_all split_all 0 (A, B)
              = ([], Returned ([[zero; of_Z 1]; [zero; S754_infinity true]],
                               [of_Z 1; S754_infinity true])))
    by (vm_compute; reflexivity).
  rewrite E in Hrun. injection Hrun as _ <-. reflexivity.
Defined.

Lemma running_max_nan A i lo hi big :
  is_nan big = true -> running_max A i lo hi big = big.
Proof.
  intros Hn. destruct big; try discriminate. unfold running_max.
  destruct (Nat.le_gt_cases lo hi) as [Hle|Hgt].
  - apply (for_loop_ind (fun _ b => b = S754_nan)); [exact Hle|reflexivity|].
    intros k b _ ->. unfold gtb, SFltb. reflexivity.
  - apply for_loop_nil. lia.
Qed.

(** X8.  A NaN on the diagonal is never reported as a singularity, whatever
    the rest of the column holds: the column is processed with the NaN as
    pivot. *)
Theorem nan_pivot_not_singular rs fs A B i :
  is_nan (mget A i i) = true ->
  gauss_column rs fs i (A, B) = ([], Returned (sweep i (A, B))).
Proof.
  intros Hn. rewrite gauss_column_spec.
  assert (Ha : is_nan (abs (mget A i i)) = true) by (destruct (mget A i i); try discriminate; reflexivity).
  rewrite (running_max_nan A i _ _ _ Ha).
  destruct (abs (mget A i i)); try discriminate. reflexivity.
Qed.

Lemma nan_pivot_not_singular_witness :
  let A := [[nan; zero]; [zero; zero]] in
  let B := V_of [1; 2]%Z in
  gauss_column split_all split_all 0 (A, B) = ([], Returned (sweep 0 (A, B))) /\
  sweep 0 (A, B) = ([[nan; zero]; [zero; nan]], [of_Z 1; nan]).
Proof.
  intros A B. split.
  - apply (nan_pivot_not_singular split_all split_all A B 0). reflexivity.
  - vm_compute. reflexivity.
Defined.

(** Invariant rule for two runs of the same descending loop. *)
Lemma for_down_ind2 {St T : Type} (R : nat -> St -> T -> Prop) hi lo
    (f : nat -> St -> St) (g : nat -> T -> T) s t :
  lo <= hi ->
  R hi s t ->
  (forall k s t, lo <= k < hi -> R (S k) s t -> R k (f k s) (g k t)) ->
  R lo (for_down hi lo f s) (for_down hi lo g t).
Proof.
  intros Hle H0 Hstep.
  remember (hi - lo) as d eqn:Hd. revert lo Hle Hd Hstep.
  induction d as [|d IH]; intros lo Hle Hd Hstep.
  - assert (lo = hi) by lia. subst. rewrite !for_down_nil by lia. exact H0.
  - rewrite !(for_down_last hi lo) by lia. apply Hstep; [lia|].
    apply IH; [lia|lia|]. intros k s' t' Hk. apply Hstep. lia.
Qed.

Lemma back_substitution_ignores_X n A B X1 X2 :
  length A = n -> length X1 = n -> length X2 = n ->
  back_substitution A B X1 = back_substitution A B X2.
Proof.
  intros HA H1 H2. unfold back_substitution. rewrite HA.
  assert (H : let s1 := for_down n 0 (substitute A) (B, X1) in
              let s2 := for_down n 0 (substitute A) (B, X2) in
              fst s1 = fst s2 /\ length (snd s1) = n /\ length (snd s2) = n /\
              forall j, 0 <= j < n -> vget (snd s1) j = vget (snd s2) j).
  { cbv zeta.
    apply (for_down_ind2 (fun lo (s1 s2 : vector_t * vector_t) =>
      fst s1 = fst s2 /\ length (snd s1) = n /\ length (snd s2) = n /\
      forall j, lo <= j < n -> vget (snd s1) j = vget (snd s2) j)); [lia| |].
    - cbn [fst snd]. repeat split; try assumption. intros j Hj. lia.
    - intros k [B1 Y1] [B2 Y2] Hk (HB & Hl1 & Hl2 & Hagree).
      cbn [fst snd] in *. subst B2. unfold substitute. cbn [fst snd].
      rewrite !vget_vset_eq by lia. rewrite !length_vset.
      split; [reflexivity|]. split; [exact Hl1|]. split; [exact Hl2|].
      intros j Hj. destruct (decide (j = k)) as [->|Hne].
      + rewrite !vget_vset_eq by lia. reflexivity.
      + rewrite !vget_vset_ne by congruence. apply Hagree. lia. }
  cbv zeta in H. destruct H as (HB & Hl1 & Hl2 & Hagree).
  destruct (for_down n 0 (substitute A) (B, X1)) as [B1 Y1].
  destruct (for_down n 0 (substitute A) (B, X2)) as [B2 Y2].
  cbn [fst snd] in *. subst B2. f_equal.
  apply (vector_ext n); [assumption|assumption|]. intros j Hj. apply Hagree. lia.
Qed.

(** X9.  [X] is an output only: what it holds when [gauss] is called has no
    influence on the output, on the exit behaviour or on the contents of
    [A], [B] and [X] afterwards. *)
Theorem gauss_ignores_initial_X rs fs n A B X1 X2 :
  square n A -> length B = n -> length X1 = n -> length X2 = n ->
  gauss rs fs A B X1 = gauss rs fs A B X2.
Proof.
  intros HA HB H1 H2. unfold gauss, eliminate.
  replace (length A) with n by (destruct HA; congruence).
  destruct (gauss_columns rs fs (seq 0 n) (A, B)) as [o [[A' B']|st|]] eqn:E;
    [|reflexivity|reflexivity].
  destruct (gauss_columns_invariant rs fs n A B n o A' B' HA HB ltac:(lia) E)
    as (_ & [HlA _] & _ & _).
  cbn [bind].
  rewrite (back_substitution_ignores_X n A' B' X1 X2 HlA H1 H2). reflexivity.
Qed.

Lemma gauss_ignores_initial_X_witness :
  gauss split_all split_all textbook_A textbook_B (V_of [0; 0; 0]%Z)
  = gauss split_all split_all textbook_A textbook_B [nan; of_Z 7; of_Z (-1)].
Proof.
  apply (gauss_ignores_initial_X split_all split_all 3).
  - split; [reflexivity|]. repeat constructor.
  - reflexivity.
  - reflexivity.
  - reflexivity.
Defined.

(** X10.  A system of one equation [a * x = b]: [gauss] reports a
    singularity exactly when [a] compares equal to [0.0], and otherwise
    stores [b / a] in [X[0]] and leaves [a] and [b] as they were. *)
Theorem gauss_one_equation rs fs a b x :
  gauss rs fs [[a]] [b] [x]
  = if (a =? zero)%D then ([OutSingular], Exited (-1)%Z)
    else ([], Returned ([[a]], [b], [(b / a)%D])).
Proof.
  unfold gauss, eliminate. cbn [length seq gauss_columns].
  rewrite gauss_column_spec. cbn [length Nat.add].
  unfold running_max. rewrite for_loop_nil by lia.
  change (mget [[a]] 0 0) with a. rewrite eqb_zero_abs.
  destruct (a =? zero)%D; [reflexivity|].
  unfold sweep. cbn [fst length Nat.add]. rewrite for_loop_nil by lia.
  reflexivity.
Qed.

(** ** [check] *)

Lemma check_rows_seq_cases lo len A B X :
  (check_rows (seq lo len) A B X = ([OutVerificationSucceeded], Returned tt) /\
   forall i, lo <= i < lo + len -> row_fails A B X i = false) \/
  (exists i, lo <= i < lo + len /\
     check_rows (seq lo len) A B X
     = ([OutVerificationFailed i (row_product A X i) (vget B i)], Returned tt) /\
     row_fails A B X i = true /\
     forall j, lo <= j < i -> row_fails A B X j = false).
Proof.
  revert lo. induction len as [|len IH]; intros lo; cbn [seq check_rows].
  - left. split; [reflexivity|]. intros i Hi. lia.
  - destruct (row_fails A B X lo) eqn:E.
    + right. exists lo. split; [lia|]. split; [reflexivity|]. split; [exact E|].
      intros j Hj. lia.
    + destruct (IH (S lo)) as [[Hs Hall]|(i & Hi & Hf & Hfi & Hbefore)].
      * left. split; [exact Hs|]. intros i Hi.
        destruct (decide (i = lo)) as [->|Hne]; [exact E|apply Hall; lia].
      * right. exists i. split; [lia|]. split; [exact Hf|]. split; [exact Hfi|].
        intros j Hj. destruct (decide (j = lo)) as [->|Hne]; [exact E|apply Hbefore; lia].
Qed.

(** X11.  [check] always returns after printing exactly one message.  It is
    the success message when the test of line 181 is false for every row;
    otherwise it is the failure message for the first row [i] whose test is
    true, with [ans] and [B[i]] of that row, and the ratio of that row is
    outside the window. *)
Theorem check_reports_first_failure A B X :
  (check A B X = ([OutVerificationSucceeded], Returned tt) /\
   forall i, i < length A -> row_fails A B X i = false) \/
  (exists i, i < length A /\
     check A B X
     = ([OutVerificationFailed i (row_product A X i) (vget B i)], Returned tt) /\
     row_fails A B X i = true /\
     (forall j, j < i -> row_fails A B X j = false) /\
     ~ ratio_in_window A B X i).
Proof.
  unfold check.
  destruct (check_rows_seq_cases 0 (length A) A B X)
    as [[Hs Hall]|(i & Hi & Hf & Hfi & Hbefore)].
  - left. split; [exact Hs|]. intros i Hi. apply Hall. lia.
  - right. exists i. split; [lia|]. split; [exact Hf|]. split; [exact Hfi|].
    split; [intros j Hj; apply Hbefore; lia|].
    intros Hw. apply window_passes in Hw. congruence.
Qed.

(** X20.  When the ratio of every row lies inside the window
    [0.999999, 1.00001], [check] declares success. *)
Theorem window_implies_success A B X :
  (forall i, i < length A -> ratio_in_window A B X i) ->
  check A B X = ([OutVerificationSucceeded], Returned tt).
Proof.
  intros H.
  destruct (check_rows_seq_cases 0 (length A) A B X)
    as [[Hs _]|(i & Hi & _ & Hfi & _)]; [exact Hs|].
  rewrite (window_passes A B X i (H i ltac:(lia))) in Hfi. discriminate.
Qed.

Lemma window_implies_success_witness :
  let A := M_of [[2; 0]; [1; 1]]%Z in
  let B := V_of [4; 5]%Z in
  let X := V_of [2; 3]%Z in
  row_ratio A B X 0 = of_Z 1 /\
  check A B X = ([OutVerificationSucceeded], Returned tt).
Proof.
  intros A B X. split; [vm_compute; reflexivity|].
  apply (window_implies_success A B X).
  intros i Hi. destruct i as [|[|i]]; [| |simpl in Hi; lia];
    split; vm_compute; reflexivity.
Defined.

(** ** The command line *)

(** A numeric option sets its variable and leaves the other two. *)
Lemma handle_option_values o optarg c0 out c1 :
  handle_option o optarg c0 = (out, Returned c1) ->
  seed c1 = (if Ascii.eqb o "r" then atoi optarg else seed c0) /\
  size c1 = (if Ascii.eqb o "n" then atoi optarg else size c0) /\
  range c1 = (if Ascii.eqb o "g" then atoi optarg else range c0).
Proof.
  unfold handle_option.
  repeat match goal with
         | |- context [Ascii.eqb o ?f] =>
             destruct (Ascii.eqb_spec o f) as [->|?]; cbn [Ascii.eqb Bool.eqb]
         end;
    simpl; intros H; try discriminate; injection H as <- <-; simpl; repeat split.
Qed.

Lemma parse_options_values opts c0 out c :
  parse_options opts c0 = (out, Returned c) ->
  seed c = last_value "r" opts (seed c0) /\
  size c = last_value "n" opts (size c0) /\
  range c = last_value "g" opts (range c0).
Proof.
  revert out c0.
  induction opts as [|[o optarg] opts IH]; intros out c0 H.
  - simpl in H. injection H as _ <-. repeat split.
  - cbn [parse_options] in H. apply bind_returned in H.
    destruct H as (o1 & c1 & o2 & H1 & H2 & _).
    destruct (handle_option_values _ _ _ _ _ H1) as (Hs & Hn & Hg).
    destruct (IH _ _ H2) as (Hs' & Hn' & Hg').
    cbn [last_value]. rewrite Hs', Hn', Hg', Hs, Hn, Hg. repeat split.
Qed.

(** What [atoi] returns is an [int]. *)
Lemma atoi_is_int s : is_int (atoi s).
Proof.
  unfold is_int, atoi, to_int.
  pose proof (Z.mod_pos_bound (strtol s + 2 ^ 31) (2 ^ 32) ltac:(lia)). lia.
Qed.

Lemma last_value_is_int f opts d : is_int d -> is_int (last_value f opts d).
Proof.
  revert d. induction opts as [|[o optarg] opts IH]; intros d Hd; cbn [last_value].
  - exact Hd.
  - apply IH. destruct (Ascii.eqb o f); [apply atoi_is_int|exact Hd].
Qed.

(** X12.  For a command line that is accepted, [seed], [size] and [range]
    hold the argument of the last [-r], [-n] and [-g], converted by [atoi]
    to an [int] (a value that does not fit wraps around); an option that
    does not occur leaves the default 411, 2048 or 65536. *)
Theorem last_numeric_option_wins opts out c :
  parse_options opts initial_config = (out, Returned c) ->
  (seed c = last_value "r" opts 411 /\
   size c = last_value "n" opts 2048 /\
   range c = last_value "g" opts 65536) /\
  (is_int (seed c) /\ is_int (size c) /\ is_int (range c)).
Proof.
  intros H. destruct (parse_options_values opts initial_config out c H) as (Hs & Hn & Hg).
  cbn [seed size range initial_config] in Hs, Hn, Hg.
  split; [split; [exact Hs|split; [exact Hn|exact Hg]]|].
  rewrite Hs, Hn, Hg.
  split; [|split]; apply last_value_is_int; unfold is_int; lia.
Qed.

Lemma last_numeric_option_wins_witness :
  exists c,
    parse_options [option_arg "n" "16"; option_arg "r" "99999999999"; flag "v";
                   option_arg "n" " -3x"] initial_config = ([], Returned c) /\
    seed c = 1215752191%Z /\ size c = (-3)%Z /\ range c = 65536%Z.
Proof.
  eexists. split; [vm_compute; reflexivity|].
  exact (proj1 (last_numeric_option_wins
           [option_arg "n" "16"; option_arg "r" "99999999999"; flag "v";
            option_arg "n" " -3x"]
           [] _ eq_refl)).
Defined.

Lemma parse_options_app l1 l2 c :
  parse_options (l1 ++ l2) c = bind (parse_options l1 c) (parse_options l2).
Proof.
  revert c. induction l1 as [|[o optarg] l1 IH]; intros c; cbn [parse_options app].
  - rewrite bind_ret_l. reflexivity.
  - destruct (handle_option o optarg c) as [o1 [c1|st|]]; cbn [bind];
      [|reflexivity|reflexivity].
    rewrite IH. destruct (parse_options l1 c1) as [o2 [c2|st2|]]; cbn [bind].
    + destruct (parse_options l2 c2) as [o3 r3]. rewrite app_assoc. reflexivity.
    + reflexivity.
    + reflexivity.
Qed.

(** What one option does to the output and to the run. *)
Lemma handle_option_cases o optarg c :
  (is_known o = true /\ Ascii.eqb o "h" = false /\
   exists c', handle_option o optarg c = ([], Returned c')) \/
  (Ascii.eqb o "h" = true /\ handle_option o optarg c = ([OutUsage], Returned c)) \/
  (is_known o = false /\ handle_option o optarg c = ([OutUsage], Exited (-1)%Z)).
Proof.
  unfold handle_option, is_known. cbn [existsb].
  repeat match goal with
         | |- context [Ascii.eqb o ?f] =>
             destruct (Ascii.eqb_spec o f) as [->|?]; cbn [Ascii.eqb Bool.eqb orb andb]
         end;
    try (left; split; [reflexivity|split; [reflexivity|eexists; reflexivity]]);
    try (right; left; split; reflexivity);
    try (right; right; split; reflexivity).
Qed.

(** Options that are all known are accepted; each [-h] prints the usage. *)
Lemma parse_options_known opts c0 :
  forallb is_known (map fst opts) = true ->
  exists c, parse_options opts c0
            = (repeat OutUsage (occurrences "h" opts), Returned c).
Proof.
  revert c0. induction opts as [|[o optarg] opts IH]; intros c0 Hk.
  - exists c0. reflexivity.
  - cbn [map fst forallb] in Hk. apply andb_prop in Hk. destruct Hk as [Ho Hk].
    cbn [parse_options occurrences].
    destruct (handle_option_cases o optarg c0)
      as [(_ & Hh & c' & H)|[(Hh & H)|(Hu & _)]]; [| |congruence]; rewrite H, Hh;
      cbn [bind].
    + destruct (IH c' Hk) as [c Hc]. exists c. rewrite Hc. reflexivity.
    + destruct (IH c0 Hk) as [c Hc]. exists c. rewrite Hc. reflexivity.
Qed.

Section CommandLine.

Variable reduce_schedule : nat -> schedule.
Variable for_schedule : nat -> schedule.
Variable engine : Type.
Variable mt19937 : Z -> engine.
Variable uniform_real : double -> double -> engine -> double * engine.
Variable heap : nat -> nat -> double.
Variable memory : Z -> bool.

Let program :=
  main reduce_schedule for_schedule engine mt19937 uniform_real heap memory.
Let run_program :=
  run reduce_schedule for_schedule engine mt19937 uniform_real heap memory.

(** X13.  [-h] prints the usage text and the program carries on: a command
    line with a leading [-h] behaves as the rest of the command line does,
    with the usage text printed first. *)
Theorem help_prints_usage_and_continues optarg opts :
  program (("h"%char, optarg) :: opts)
  = (OutUsage :: stdout (program opts), result (program opts)).
Proof.
  unfold program, main. cbn [parse_options].
  change (handle_option "h" optarg initial_config)
    with (print OutUsage ;;; ret initial_config).
  unfold print, ret. cbn [bind].
  destruct (parse_options opts initial_config) as [o [c|st|]]; cbn [bind app];
    [|reflexivity|reflexivity].
  destruct (run _ _ _ _ _ _ _ c) as [o2 r2]. reflexivity.
Qed.

(** X14.  An option character that is not in ["r:n:g:hvcp"] ends the program
    with [exit(-1)]: when the options before it are known ones, the output
    is the usage text once for each [-h] among them and once for the unknown
    option, and nothing else; no system is generated or solved. *)
Theorem unknown_option_exits before o optarg after :
  forallb is_known (map fst before) = true ->
  is_known o = false ->
  program (before ++ (o, optarg) :: after)
  = (repeat OutUsage (occurrences "h" before + 1), Exited (-1)%Z).
Proof.
  intros Hb Ho. unfold program, main. rewrite parse_options_app.
  destruct (parse_options_known before initial_config Hb) as [c Hc]. rewrite Hc.
  cbn [bind parse_options].
  destruct (handle_option_cases o optarg c)
    as [(Hk & _)|[(Hh & _)|(_ & H)]].
  - congruence.
  - apply Ascii.eqb_eq in Hh. subst o. discriminate.
  - rewrite H. cbn [bind]. rewrite repeat_app. reflexivity.
Qed.

Lemma parse_options_cases opts c0 :
  (exists out c, parse_options opts c0 = (out, Returned c)) \/
  (exists out, parse_options opts c0 = (out, Exited (-1)%Z) /\ In OutUsage out).
Proof.
  revert c0. induction opts as [|[o optarg] opts IH]; intros c0; cbn [parse_options].
  - left. eexists _, _. reflexivity.
  - destruct (handle_option_cases o optarg c0)
      as [(_ & _ & c' & H)|[(_ & H)|(_ & H)]]; rewrite H; cbn [bind].
    + destruct (IH c') as [(out & c & Hc)|(out & Hc & Hin)]; rewrite Hc.
      * left. eexists _, _. reflexivity.
      * right. eexists. split; [reflexivity|exact Hin].
    + destruct (IH c0) as [(out & c & Hc)|(out & Hc & Hin)]; rewrite Hc.
      * left. eexists _, _. reflexivity.
      * right. eexists. split; [reflexivity|]. right. exact Hin.
    + right. eexists. split; [reflexivity|]. left. reflexivity.
Qed.

(** X15.  The program ends in one of three ways.  It returns [0]; or it
    calls [exit(-1)], which happens only after the usage text was printed
    for a rejected option or after [gauss] printed the singularity message;
    or it is aborted by the [std::bad_alloc] that nothing catches, which
    happens only when the storage for the parsed [size] cannot be allocated,
    and then right after the configuration line.  In particular a failed
    verification leaves the status at [0]. *)
Theorem main_exit_status opts :
  exit_status (program opts) = Some 0%Z \/
  (exit_status (program opts) = Some (-1)%Z /\
   (In OutUsage (stdout (program opts)) \/ In OutSingular (stdout (program opts)))) \/
  (exit_status (program opts) = None /\
   exists out c,
     parse_options opts initial_config = (out, Returned c) /\
     allocation_fails memory (size c) = true /\
     stdout (program opts)
     = out ++ [OutConfig (seed c) (size c) (range c) (parallel c)]).
Proof.
  unfold program, main.
  destruct (parse_options_cases opts initial_config)
    as [(out & c & Hc)|(out & Hc & Hin)]; rewrite Hc; cbn [bind].
  - destruct (allocation_fails memory (size c)) eqn:Ef.
    + right. right.
      rewrite (run_without_memory reduce_schedule for_schedule engine mt19937
                 uniform_real heap memory c Ef).
      split; [reflexivity|]. exists out, c.
      split; [reflexivity|]. split; [exact Ef|reflexivity].
    + pose proof (run_exit_status reduce_schedule for_schedule engine mt19937
                    uniform_real heap memory c Ef) as Hrun.
      destruct (run _ _ _ _ _ _ _ c) as [o2 r2].
      unfold exit_status, result, stdout in *. cbn [fst snd] in *.
      destruct Hrun as [H|[H Hin]]; [left; exact H|].
      right. left. split; [exact H|]. right. apply in_or_app. right. exact Hin.
  - right. left. unfold exit_status, result, stdout. cbn [fst snd].
    split; [reflexivity|]. left. exact Hin.
Qed.

(** X16.  With the parallel flag set, and once the storage is allocated, the
    program cannot stop on a singular matrix: it prints that the parallel
    version is not implemented, never prints the singularity message, and
    ends with status [0]. *)
Theorem parallel_run_never_stops c :
  parallel c = true ->
  allocation_fails memory (size c) = false ->
  exit_status (run_program c) = Some 0%Z /\
  In OutNotImplemented (stdout (run_program c)) /\
  ~ In OutSingular (stdout (run_program c)).
Proof.
  intros Hp Hf. unfold run_program, run, allocate, solve. rewrite Hp, Hf.
  cbn [bind print ret].
  destruct (initializeFromSeed _ _ _ _ _ _ _) as [A B].
  set (X := new_array heap _ _). clearbody X.
  unfold bind, print, ret. cbv beta iota.
  destruct (initializeFromSeed engine mt19937 uniform_real (seed c) A B _) as [A2 B2].
  assert (Hcheck : exists o, check A2 B2 X = ([o], Returned tt) /\ o <> OutSingular).
  { destruct (check_rows_seq_cases 0 (length A2) A2 B2 X)
      as [[Hs _]|(i & _ & Hf' & _)]; unfold check; rewrite ?Hs, ?Hf';
      eexists; (split; [reflexivity|discriminate]). }
  destruct Hcheck as (oc & Hc & Hne).
  unfold exit_status, result, stdout.
  destruct (verbose c), (docheck c); rewrite ?Hc; cbn [fst snd app In];
    (split; [reflexivity|]); (split; [tauto|]);
    intros H; repeat (destruct H as [H|H]; try discriminate; try congruence); exact H.
Qed.

(** A negative [int] is a dimension of at least [2^31]. *)
Lemma negative_size_cannot_be_allocated size :
  is_int size -> (size < 0)%Z -> allocation_fails memory size = true.
Proof.
  unfold is_int, allocation_fails, to_unsigned. intros Hi Hneg.
  replace size with ((size + 2 ^ 32) + (-1) * 2 ^ 32)%Z by lia.
  rewrite Z.mod_add by lia. rewrite Z.mod_small by lia.
  apply orb_true_intro. left. apply Z.leb_le. lia.
Qed.

(** X22.  A negative [size] aborts the program: the [int] is converted to an
    [unsigned int] of at least [2^31], the storage cannot be allocated on any
    machine, and the program ends by the uncaught [std::bad_alloc] right
    after the configuration line, with no system generated or solved. *)
Theorem negative_size_aborts opts out c :
  parse_options opts initial_config = (out, Returned c) ->
  (size c < 0)%Z ->
  program opts
  = (out ++ [OutConfig (seed c) (size c) (range c) (parallel c)], Aborted).
Proof.
  intros Hc Hneg. unfold program, main. rewrite Hc. cbn [bind].
  destruct (parse_options_values opts initial_config out c Hc) as (_ & Hn & _).
  assert (Hi : is_int (size c)).
  { rewrite Hn. apply last_value_is_int. unfold is_int. simpl. lia. }
  rewrite (run_without_memory reduce_schedule for_schedule engine mt19937
             uniform_real heap memory c
             (negative_size_cannot_be_allocated (size c) Hi Hneg)).
  reflexivity.
Qed.

End CommandLine.

Lemma unknown_option_exits_witness :
  main unsplit_all unsplit_all counter_engine counter_seed counter_draw zeroed_heap
    ample_memory
    ([flag "v"; flag "h"; option_arg "n" "4"] ++ flag "x" :: [flag "p"])
  = ([OutUsage; OutUsage], Exited (-1)%Z).
Proof.
  exact (unknown_option_exits unsplit_all unsplit_all counter_engine counter_seed
           counter_draw zeroed_heap ample_memory
           [flag "v"; flag "h"; option_arg "n" "4"] "x" EmptyString [flag "p"]
           eq_refl eq_refl).
Defined.

Lemma parallel_run_never_stops_witness :
  let c := {| seed := 1; size := 2; range := 65536;
              verbose := false; docheck := true; parallel := true |} in
  exit_status (run unsplit_all unsplit_all counter_engine counter_seed counter_draw
                 zeroed_heap ample_memory c) = Some 0%Z.
Proof.
  intros c.
  exact (proj1 (parallel_run_never_stops unsplit_all unsplit_all counter_engine
                  counter_seed counter_draw zeroed_heap ample_memory c
                  eq_refl eq_refl)).
Defined.

Lemma negative_size_aborts_witness :
  main unsplit_all unsplit_all counter_engine counter_seed counter_draw zeroed_heap
    ample_memory [flag "p"; option_arg "n" "-3"]
  = ([OutConfig 411 (-3) 65536 true], Aborted).
Proof.
  exact (negative_size_aborts unsplit_all unsplit_all counter_engine counter_seed
           counter_draw zeroed_heap ample_memory
           [flag "p"; option_arg "n" "-3"] []
           {| seed := 411; size := -3; range := 65536;
              verbose := false; docheck := true; parallel := true |}
           eq_refl eq_refl).
Defined.

(** ** [initializeFromSeed] *)

Lemma negate_unsigned_wraps range :
  (0 < range < 2 ^ 32)%Z -> negate_unsigned range = (2 ^ 32 - range)%Z.
Proof.
  intros H. unfold negate_unsigned.
  replace (- range)%Z with ((2 ^ 32 - range) + (-1) * 2 ^ 32)%Z by lia.
  rewrite Z.mod_add by lia. apply Z.mod_small. lia.
Qed.

Section FillOrder.

Variable engine : Type.
Variable uniform_real : double -> double -> engine -> double * engine.
Variables a b : double.
Variable g0 : engine.

Let after := engine_after uniform_real a b g0.
Let drawn := nth_draw uniform_real a b g0.

Lemma draw_into_next {T : Type} (store : T -> double -> T) (t : T) k :
  draw_into engine uniform_real a b store (t, after k)
  = (store t (drawn k), after (S k)).
Proof.
  unfold draw_into, drawn, nth_draw, after.
  change (engine_after uniform_real a b g0 (S k))
    with (snd (uniform_real a b (engine_after uniform_real a b g0 k))).
  destruct (uniform_real a b (engine_after uniform_real a b g0 k)). reflexivity.
Qed.

(** Row [i] is filled with the draws [i * n], ..., [i * n + n - 1]. *)
Lemma fill_row_order n i (M : matrix_t) :
  i < n -> square n M ->
  (forall i' j, i' < i -> j < n -> mget M i' j = drawn (i' * n + j)) ->
  let s := for_loop 0 n
    (fun j => draw_into engine uniform_real a b (fun A x => mset A i j x))
    (M, after (i * n)) in
  snd s = after (S i * n) /\ square n (fst s) /\
  (forall i' j, i' < S i -> j < n -> mget (fst s) i' j = drawn (i' * n + j)).
Proof.
  intros Hi HM Hprev s.
  assert (H : snd s = after (i * n + n) /\ square n (fst s) /\
    (forall i' j, (i' < i /\ j < n) \/ (i' = i /\ j < n) ->
       mget (fst s) i' j = drawn (i' * n + j))).
  { unfold s.
    apply (for_loop_ind (fun hi (t : matrix_t * engine) =>
      snd t = after (i * n + hi) /\ square n (fst t) /\
      (forall i' j, (i' < i /\ j < n) \/ (i' = i /\ j < hi) ->
         mget (fst t) i' j = drawn (i' * n + j)))); [lia| |].
    - cbn [fst snd]. split; [f_equal; lia|]. split; [exact HM|].
      intros i' j [[Hi' Hj]|[_ Hj]]; [apply Hprev; assumption|lia].
    - intros j [M1 g1] Hj (Hg & Hsq & Hdone). cbn [fst snd] in *. subst g1.
      rewrite draw_into_next. cbn [fst snd].
      split; [f_equal; lia|]. split; [apply square_mset, Hsq|].
      intros i' j' Hc.
      destruct (decide (i' = i /\ j' = j)) as [[-> ->]|Hne].
      + apply (mget_mset_square n); [exact Hsq|lia|lia].
      + assert (Hd : i <> i' \/ j <> j')
          by (destruct (decide (i = i'));
              [right; intros Heq; apply Hne; split; congruence|left; assumption]).
        rewrite mget_mset_ne by exact Hd. apply Hdone.
        destruct Hc as [Hc|[-> Hc]]; [left; exact Hc|right; split; [reflexivity|]].
        destruct (decide (j' = j)) as [->|Hj']; [exfalso; apply Hne; split; reflexivity|lia]. }
  destruct H as (Hg & Hsq & Hdone).
  split; [rewrite Hg; f_equal; lia|]. split; [exact Hsq|].
  intros i' j Hi' Hj. apply Hdone.
  destruct (decide (i' = i)); [right|left]; split; try assumption; lia.
Qed.

Lemma fill_matrix_order n (M : matrix_t) :
  square n M ->
  let s := for_loop 0 n
    (fun i => for_loop 0 n
       (fun j => draw_into engine uniform_real a b (fun A x => mset A i j x)))
    (M, g0) in
  snd s = after (n * n) /\ square n (fst s) /\
  (forall i j, i < n -> j < n -> mget (fst s) i j = drawn (i * n + j)).
Proof.
  intros HM s. unfold s.
  apply (for_loop_ind (fun hi (t : matrix_t * engine) =>
    snd t = after (hi * n) /\ square n (fst t) /\
    (forall i j, i < hi -> j < n -> mget (fst t) i j = drawn (i * n + j)))); [lia| |].
  - cbn [fst snd]. split; [reflexivity|]. split; [exact HM|]. intros i j Hi. lia.
  - intros i [M1 g1] Hi (Hg & Hsq & Hdone). cbn [fst snd] in *. subst g1.
    apply fill_row_order; [lia|exact Hsq|exact Hdone].
Qed.

Lemma fill_vector_order m base (V : vector_t) :
  length V = m ->
  let s := for_loop 0 m
    (fun i => draw_into engine uniform_real a b (fun B x => vset B i x))
    (V, after base) in
  forall i, i < m -> vget (fst s) i = drawn (base + i).
Proof.
  intros HV s.
  assert (H : snd s = after (base + m) /\ length (fst s) = m /\
              forall i, i < m -> vget (fst s) i = drawn (base + i)).
  { unfold s.
    apply (for_loop_ind (fun hi (t : vector_t * engine) =>
      snd t = after (base + hi) /\ length (fst t) = m /\
      forall i, i < hi -> vget (fst t) i = drawn (base + i))); [lia| |].
    - cbn [fst snd]. split; [f_equal; lia|]. split; [exact HV|]. intros i Hi. lia.
    - intros i [V1 g1] Hi (Hg & Hl & Hdone). cbn [fst snd] in *. subst g1.
      rewrite draw_into_next. cbn [fst snd].
      split; [f_equal; lia|]. split; [rewrite length_vset; exact Hl|].
      intros i' Hi'. destruct (decide (i' = i)) as [->|Hne].
      + apply vget_vset_eq. lia.
      + rewrite vget_vset_ne by congruence. apply Hdone. lia. }
  apply H.
Qed.

End FillOrder.

(** X17.  [initializeFromSeed] fills [A] row by row and then [B] from one
    stream of draws of the engine built from [seed]: [A[i][j]] is draw number
    [i * n + j] and [B[i]] is draw number [n * n + i].  The bounds given to
    the distribution are [2^32 - range] and [range], since [-range] is
    computed on [unsigned int]. *)
Theorem initializeFromSeed_fills_in_order
    (engine : Type) (mt19937 : Z -> engine)
    (uniform_real : double -> double -> engine -> double * engine)
    seed range n (A0 : matrix_t) (B0 : vector_t) :
  square n A0 -> (0 < range < 2 ^ 32)%Z ->
  let drawn := nth_draw uniform_real (of_Z (2 ^ 32 - range)) (of_Z range) (mt19937 seed) in
  let A := fst (initializeFromSeed engine mt19937 uniform_real seed A0 B0 range) in
  let B := snd (initializeFromSeed engine mt19937 uniform_real seed A0 B0 range) in
  (forall i j, i < n -> j < n -> mget A i j = drawn (i * n + j)) /\
  (forall i, i < length B0 -> vget B i = drawn (n * n + i)).
Proof.
  intros HA Hr. cbv zeta. unfold initializeFromSeed.
  rewrite (negate_unsigned_wraps range Hr).
  replace (length A0) with n by (destruct HA; congruence).
  destruct (fill_matrix_order engine uniform_real (of_Z (2 ^ 32 - range)) (of_Z range)
              (mt19937 seed) n A0 HA) as (Hg & _ & HAfill).
  cbv zeta in Hg, HAfill.
  destruct (for_loop 0 n _ (A0, mt19937 seed)) as [A g]. cbn [fst snd] in *. subst g.
  pose proof (fill_vector_order engine uniform_real (of_Z (2 ^ 32 - range)) (of_Z range)
                (mt19937 seed) (length B0) (n * n) B0 eq_refl) as HBfill.
  cbv zeta in HBfill.
  destruct (for_loop 0 (length B0) _ (B0, _)) as [B g]. cbn [fst snd] in *.
  split; [exact HAfill|exact HBfill].
Qed.

Lemma initializeFromSeed_fills_in_order_witness :
  let init := initializeFromSeed counter_engine counter_seed counter_draw 10
                (M_of [[0; 0]; [0; 0]]%Z) (V_of [0; 0]%Z) 65536 in
  init = (M_of [[4294901770; 4294901771]; [4294901772; 4294901773]]%Z,
          V_of [4294901774; 4294901775]%Z) /\
  forall i j, i < 2 -> j < 2 ->
    mget (fst init) i j
    = nth_draw counter_draw (of_Z (2 ^ 32 - 65536)) (of_Z 65536) (counter_seed 10)
        (i * 2 + j).
Proof.
  intros init. split; [vm_compute; reflexivity|].
  refine (proj1 (initializeFromSeed_fills_in_order counter_engine counter_seed
                   counter_draw 10 65536 2 (M_of [[0; 0]; [0; 0]]%Z) (V_of [0; 0]%Z) _ _)).
  - split; [reflexivity|]. repeat constructor.
  - lia.
Defined.

(** ** Storage *)

(** X18.  Writing [A[i][j] = x] in an [n] by [n] matrix: the entry then reads
    [x], every other entry reads as before, and the matrix is still [n] by
    [n]. *)
Theorem matrix_write_then_read n (A : matrix_t) i j x :
  square n A -> i < n -> j < n ->
  mget (mset A i j x) i j = x /\
  (forall i' j', i' <> i \/ j' <> j -> mget (mset A i j x) i' j' = mget A i' j') /\
  square n (mset A i j x).
Proof.
  intros HA Hi Hj. split; [apply (mget_mset_square n); assumption|].
  split; [|apply square_mset, HA].
  intros i' j' Hne. apply mget_mset_ne. destruct Hne; [left|right]; congruence.
Qed.

Lemma matrix_write_then_read_witness :
  let A := M_of [[1; 2]; [3; 4]]%Z in
  mset A 1 0 (of_Z 9) = M_of [[1; 2]; [9; 4]]%Z /\
  mget (mset A 1 0 (of_Z 9)) 1 0 = of_Z 9.
Proof.
  intros A. split; [reflexivity|].
  refine (proj1 (matrix_write_then_read 2 A 1 0 (of_Z 9) _ _ _)); [|lia|lia].
  split; [reflexivity|]. repeat constructor.
Defined.

Lemma swap_rows_lookup (A : matrix_t) i r :
  i < length A -> r < length A ->
  swap_rows A i r !! i = A !! r /\ swap_rows A i r !! r = A !! i /\
  (forall k, k <> i -> k <> r -> swap_rows A i r !! k = A !! k) /\
  length (swap_rows A i r) = length A.
Proof.
  intros Hi Hr. unfold swap_rows.
  destruct (lookup_lt_is_Some_2 A i Hi) as [ri Hri].
  destruct (lookup_lt_is_Some_2 A r Hr) as [rr Hrr].
  rewrite Hri, Hrr. split; [|split; [|split]].
  - destruct (decide (i = r)) as [->|Hne].
    + rewrite list_lookup_insert_eq by (rewrite length_insert; exact Hr). congruence.
    + rewrite list_lookup_insert_ne by congruence.
      rewrite list_lookup_insert_eq by exact Hi. reflexivity.
  - rewrite list_lookup_insert_eq by (rewrite length_insert; exact Hr). reflexivity.
  - intros k Hki Hkr. rewrite !list_lookup_insert_ne by congruence. reflexivity.
  - rewrite !length_insert. reflexivity.
Qed.

(** X19.  [std::swap(A[i], A[r])] on the row handles exchanges the rows [i]
    and [r] and no other, keeps the matrix [n] by [n], and is undone by the
    same exchange. *)
Theorem swap_rows_exchanges n (A : matrix_t) i r :
  square n A -> i < n -> r < n ->
  swap_rows A i r !! i = A !! r /\
  swap_rows A i r !! r = A !! i /\
  (forall k, k <> i -> k <> r -> swap_rows A i r !! k = A !! k) /\
  square n (swap_rows A i r) /\
  swap_rows (swap_rows A i r) i r = A.
Proof.
  intros [Hl Hrows] Hi Hr.
  destruct (swap_rows_lookup A i r ltac:(lia) ltac:(lia)) as (H1 & H2 & H3 & H4).
  split; [exact H1|]. split; [exact H2|]. split; [exact H3|]. split.
  - split; [lia|]. rewrite Forall_lookup in *. intros k row Hk.
    destruct (decide (k = i)) as [->|Hki].
    + rewrite H1 in Hk. exact (Hrows r row Hk).
    + destruct (decide (k = r)) as [->|Hkr].
      * rewrite H2 in Hk. exact (Hrows i row Hk).
      * rewrite H3 in Hk by assumption. exact (Hrows k row Hk).
  - destruct (swap_rows_lookup (swap_rows A i r) i r ltac:(lia) ltac:(lia))
      as (G1 & G2 & G3 & _).
    apply list_eq. intros k.
    destruct (decide (k = i)) as [->|Hki]; [rewrite G1, H2; reflexivity|].
    destruct (decide (k = r)) as [->|Hkr]; [rewrite G2, H1; reflexivity|].
    rewrite G3, H3 by assumption. reflexivity.
Qed.

Lemma swap_rows_exchanges_witness :
  let A := M_of [[1; 2; 3]; [4; 5; 6]; [7; 8; 9]]%Z in
  swap_rows A 0 2 = M_of [[7; 8; 9]; [4; 5; 6]; [1; 2; 3]]%Z /\
  swap_rows (swap_rows A 0 2) 0 2 = A.
Proof.
  intros A. split; [reflexivity|].
  refine (proj2 (proj2 (proj2 (proj2 (swap_rows_exchanges 3 A 0 2 _ _ _))))); [|lia|lia].
  split; [reflexivity|]. repeat constructor.
Defined.
